(** * Progressive validation ([creme/model_selection/score.py])

    A shallow embedding of [progressive_val_score]: the question/answer
    replay loop that buffers predictions, updates a running metric and
    trains an online model, with its optional progress diagnostics. *)

From Stdlib Require Import ZArith List Bool Ascii String Lia PrimFloat.
From stdpp Require Import gmap strings list fin_maps pretty.

Local Open Scope Z_scope.

(** ** Python values *)

(** The values that travel through the loop: features [x] (a dict), labels
    [y] and predictions [y_pred].  A dict is kept as its item list. *)
#[warnings="-register-all"]
Inductive pyval : Type :=
| PyNone
| PyBool (b : bool)
| PyInt (z : Z)
| PyFloat (f : float)
| PyStr (s : string)
| PyDict (items : list (pyval * pyval)).

(** [v is None] *)
Definition is_none (v : pyval) : bool :=
  match v with PyNone => true | _ => false end.

(** [v != {}]: a mapping differs from the empty dict as soon as it has an
    item; a value of any other built-in type never equals a dict. *)
Definition ne_empty_dict (v : pyval) : bool :=
  match v with PyDict [] => false | _ => true end.

(** The guard of line 136: [y_pred != {} and y_pred is not None]. *)
Definition feeds_metric (y_pred : pyval) : bool :=
  ne_empty_dict y_pred && negb (is_none y_pred).

(** ** Collaborators *)

(** [base.Predictor]: the calls the loop makes on the model.  A model is
    mutated in place, so every call that may touch it returns the new
    state; [predict_one] and [predict_proba_one] may do so as well. *)
Class Predictor (M : Type) := {
  predict_one : M -> pyval -> pyval * M;
  predict_proba_one : M -> pyval -> pyval * M;
  fit_one : M -> pyval -> pyval -> M;
  is_classifier : M -> bool;
  memory_usage : M -> string;
  model_repr : M -> string
}.

(** [metrics.Metric]. [update] takes [y_true] first, [y_pred] second. *)
Class Metric (T M : Type) := {
  works_with : T -> M -> bool;
  requires_labels : T -> bool;
  update : T -> pyval -> pyval -> T;
  metric_repr : T -> string;
  class_name : T -> string
}.

(** [time.perf_counter] and the rendering of
    [dt.timedelta(seconds=int(now - start))]. The [k]-th reading of the
    clock is [perf_counter k]. *)
Class Clock (C : Type) := {
  perf_counter : nat -> C;
  elapsed_repr : C -> C -> string
}.

(** ** Events, errors, observable calls *)

(** An event [(i, x, y)] of [stream.simulate_qa]: a question when [y] is
    [None], an answer otherwise. *)
Abbreviation event := (Z * pyval * pyval)%type.

Inductive error : Type :=
| ValueError (msg : string)
| KeyError (key : Z).

Inductive outcome : Type :=
| Returned
| Raised (e : error).

(** The calls made on the collaborators, each tagged with the index of the
    event during which it was made. *)
Inductive call : Type :=
| CPredict (i : Z) (x y_pred : pyval)
| CUpdate (i : Z) (y_true y_pred : pyval)
| CFit (i : Z) (x y : pyval).

(** ** Formatting of a diagnostic line *)

(** Digits of a decimal numeral grouped by three from the right. *)
Fixpoint group3 (rev_digits : list ascii) : list ascii :=
  match rev_digits with
  | a :: b :: c :: ((_ :: _) as rest) => a :: b :: c :: ","%char :: group3 rest
  | _ => rev_digits
  end.

(** [f'{n:,d}'] *)
Definition fmt_thousands (n : Z) : string :=
  let digits := list_ascii_of_string (pretty (Z.abs n)) in
  let grouped := string_of_list_ascii (rev (group3 (rev digits))) in
  if n <? 0 then String "-"%char grouped else grouped.

(** The separator [' – '] between the parts of a line. *)
Definition dash : string := " – ".

Section Evaluator.
Context {M T C : Type} `{!Predictor M, !Metric T M, !Clock C}.

(** The local state of one call, with the model and the metric it
    mutates, the lines printed, the calls made so far, the number of
    events pulled from the source and the number of clock readings. *)
Record world : Type := World {
  model : M;
  metric : T;
  preds : gmap Z pyval;
  n_total_answers : Z;
  stdout : list string;
  calls : list call;
  pulled : nat;
  ticks : nat
}.

Record options : Type := Options {
  print_every : Z;
  show_time : bool;
  show_memory : bool
}.

(** Lines 116-119: the prediction call, chosen once. [true] stands for
    [predict_proba_one]. *)
Definition choose_proba (m : M) (t : T) : bool :=
  is_classifier m && negb (requires_labels t).

Definition pred_func (proba : bool) (m : M) (x : pyval) : pyval * M :=
  if proba then predict_proba_one m x else predict_one m x.

(** Lines 142-149. [start] is the reading taken at line 125; it is there
    whenever [show_time] is set. *)
Definition diagnostics (o : options) (start : option C) (w : world) : world :=
  if negb (print_every o =? 0) && (n_total_answers w mod print_every o =? 0) then
    let msg := "[" +:+ fmt_thousands (n_total_answers w) +:+ "] "
                   +:+ metric_repr (metric w) in
    let '(msg, k) :=
      match show_time o, start with
      | true, Some s =>
          (msg +:+ dash +:+ elapsed_repr s (perf_counter (ticks w)), S (ticks w))
      | _, _ => (msg, ticks w)
      end in
    let msg := if show_memory o then msg +:+ dash +:+ memory_usage (model w)
               else msg in
    World (model w) (metric w) (preds w) (n_total_answers w)
          (stdout w ++ [msg]) (calls w) (pulled w) k
  else w.

(** Lines 129-132: a question. *)
Definition question (proba : bool) (i : Z) (x : pyval) (w : world) : world :=
  let '(y_pred, m) := pred_func proba (model w) x in
  World m (metric w) (<[i := y_pred]> (preds w)) (n_total_answers w)
        (stdout w) (calls w ++ [CPredict i x y_pred]) (pulled w) (ticks w).

(** Lines 136-141: what follows a successful [preds.pop(i)]. *)
Definition answer (i : Z) (x y y_pred : pyval) (w : world) : world :=
  let fed := feeds_metric y_pred in
  let t := if fed then update (metric w) y y_pred else metric w in
  let m := fit_one (model w) x y in
  let cs := (if fed then [CUpdate i y y_pred] else []) ++ [CFit i x y] in
  World m t (delete i (preds w)) (n_total_answers w + 1)
        (stdout w) (calls w ++ cs) (pulled w) (ticks w).

Definition pull (w : world) : world :=
  World (model w) (metric w) (preds w) (n_total_answers w)
        (stdout w) (calls w) (S (pulled w)) (ticks w).

(** One iteration of the loop body on the event just pulled. *)
Definition step (o : options) (proba : bool) (start : option C)
    (e : event) (w : world) : outcome * world :=
  let '(i, x, y) := e in
  let w := pull w in
  if is_none y then (Returned, question proba i x w)
  else
    match preds w !! i with
    | None => (Raised (KeyError i), w)
    | Some y_pred => (Returned, diagnostics o start (answer i x y y_pred w))
    end.

(** The [for] loop: an exception leaves the loop at once. *)
Fixpoint loop (o : options) (proba : bool) (start : option C)
    (es : list event) (w : world) : outcome * world :=
  match es with
  | [] => (Returned, w)
  | e :: es' =>
      match step o proba start e w with
      | (Returned, w') => loop o proba start es' w'
      | (Raised err, w') => (Raised err, w')
      end
  end.

Definition init (m : M) (t : T) (k : nat) : world :=
  World m t ∅ 0 [] [] 0 k.

(** [progressive_val_score] on the events that
    [stream.simulate_qa(X_y, moment, delay, copy=True)] yields. *)
Definition progressive_val_score (es : list event) (m : M) (t : T)
    (o : options) : outcome * world :=
  if negb (works_with t m) then
    (Raised (ValueError (class_name t +:+ " metric is not compatible with "
                                    +:+ model_repr m)),
     init m t 0)
  else
    let proba := choose_proba m t in
    let '(start, k) := if show_time o then (Some (perf_counter 0), 1%nat)
                       else (None, 0%nat) in
    loop o proba start es (init m t k).

(** What a run computes, apart from what it prints and the clock readings
    it takes. *)
Definition core (w : world) : M * T * gmap Z pyval * Z * list call * nat :=
  (model w, metric w, preds w, n_total_answers w, calls w, pulled w).

End Evaluator.

(** ** Order of the calls in a trace *)

(** The update at position [k] is fed the prediction computed at an earlier
    position for the same index, no training on that index lies between
    the two, and the training call follows the update at once. *)
Definition update_in_order (cs : list call) (k : nat) (i : Z)
    (y y_pred : pyval) : Prop :=
  (exists j x, (j < k)%nat /\ cs !! j = Some (CPredict i x y_pred) /\
     forall n x' y', (j < n <= k)%nat -> cs !! n <> Some (CFit i x' y')) /\
  exists x', cs !! S k = Some (CFit i x' y).

Definition ordered (cs : list call) : Prop :=
  forall k i y y_pred,
    cs !! k = Some (CUpdate i y y_pred) -> update_in_order cs k i y y_pred.

(** Every pending prediction was computed by a call of the trace after
    which the model was not trained on that index. *)
Definition pending_traced (ps : gmap Z pyval) (cs : list call) : Prop :=
  forall i y_pred, ps !! i = Some y_pred ->
    exists j x, cs !! j = Some (CPredict i x y_pred) /\
      forall n x' y', (j < n)%nat -> cs !! n <> Some (CFit i x' y').

(** ** The stream seen as questions and answers *)

(** Indices of the question events, in order of appearance. *)
Fixpoint asked (es : list event) : list Z :=
  match es with
  | [] => []
  | (i, _, y) :: es' => if is_none y then i :: asked es' else asked es'
  end.

(** The answer events, in order of appearance. *)
Fixpoint answered (es : list event) : list event :=
  match es with
  | [] => []
  | (i, x, y) :: es' =>
      if is_none y then answered es' else (i, x, y) :: answered es'
  end.

Definition answered_ids (es : list event) : list Z :=
  (fun e : event => e.1.1) <$> answered es.

(** Indices asked but not yet answered. *)
Definition outstanding (es : list event) : gset Z :=
  list_to_set (asked es) ∖ list_to_set (answered_ids es).

(** A well-formed finite source: an index is asked once and answered
    once, never before it was asked, and no question is left open. *)
Record well_formed (es : list event) : Prop := WellFormed {
  wf_asked_once : NoDup (asked es);
  wf_answered_once : NoDup (answered_ids es);
  wf_asked_first : forall es1 i x y es2,
    es = es1 ++ (i, x, y) :: es2 -> is_none y = false -> i ∈ asked es1;
  wf_all_answered : forall i, i ∈ asked es -> i ∈ answered_ids es
}.

(** The training calls of a trace, as the [(i, x, y)] they were made on. *)
Fixpoint fits (cs : list call) : list event :=
  match cs with
  | [] => []
  | CFit i x y :: cs' => (i, x, y) :: fits cs'
  | _ :: cs' => fits cs'
  end.

(** The values of the answer counter, among [1..n], at which a line is
    printed. *)
Definition print_counts (print_every : Z) (n : nat) : list Z :=
  List.filter (fun k => negb (print_every =? 0) && (k mod print_every =? 0))
              (Z.of_nat <$> seq 1 n).

(** A line that starts with the counter between brackets. *)
Definition line_of_count (k : Z) (line : string) : Prop :=
  exists rest, line = "[" +:+ fmt_thousands k +:+ "] " +:+ rest.

(** Modelled from the spec: [stream.simulate_qa] is not among the sources.
    With no delay configured nothing is reordered: each observation of the
    raw stream, numbered in arrival order, gives its question and then at
    once its answer. *)
Fixpoint simulate_qa_from (i : Z) (X_y : list (pyval * pyval)) : list event :=
  match X_y with
  | [] => []
  | (x, y) :: rest => (i, x, PyNone) :: (i, x, y) :: simulate_qa_from (i + 1) rest
  end.

Definition simulate_qa_no_delay (X_y : list (pyval * pyval)) : list event :=
  simulate_qa_from 0 X_y.

Section ManualLoops.
Context {M T : Type} `{!Predictor M, !Metric T M}.

(** The hand-written loop the result is compared with: for each
    observation of the raw stream predict, update the metric, train. *)
Fixpoint manual_loop (proba : bool) (X_y : list (pyval * pyval))
    (m : M) (t : T) : M * T :=
  match X_y with
  | [] => (m, t)
  | (x, y) :: rest =>
      let '(y_pred, m1) := pred_func proba m x in
      let t' := update t y y_pred in
      manual_loop proba rest (fit_one m1 x y) t'
  end.

(** The same loop with the metric update skipped on an empty or absent
    prediction. *)
Fixpoint guarded_manual_loop (proba : bool) (X_y : list (pyval * pyval))
    (m : M) (t : T) : M * T :=
  match X_y with
  | [] => (m, t)
  | (x, y) :: rest =>
      let '(y_pred, m1) := pred_func proba m x in
      let t' := if feeds_metric y_pred then update t y y_pred else t in
      guarded_manual_loop proba rest (fit_one m1 x y) t'
  end.

End ManualLoops.

(** ** A small model, metric and clock to run the loop on *)

Module Demo.

(** A classifier that has nothing to say before its first training call:
    its state is the number of observations it was trained on. *)
#[global] Instance cold_start : Predictor nat := {|
  predict_one m _ := (match m with O => PyNone | _ => PyBool true end, m);
  predict_proba_one m _ :=
    (match m with
     | O => PyDict []
     | _ => PyDict [(PyBool true, PyFloat 1%float)]
     end, m);
  fit_one m _ _ := S m;
  is_classifier _ := true;
  memory_usage m := pretty m +:+ " B";
  model_repr _ := "ColdStart"
|}.

(** A metric that keeps every [(y_true, y_pred)] it was updated with. *)
Record tally : Type := Tally {
  for_classifiers : bool;
  hard_labels : bool;
  seen : list (pyval * pyval)
}.

#[global] Instance tally_metric : Metric tally nat := {|
  works_with t _ := for_classifiers t;
  requires_labels t := hard_labels t;
  update t y_true y_pred :=
    Tally (for_classifiers t) (hard_labels t) (seen t ++ [(y_true, y_pred)]);
  metric_repr t := "Tally: " +:+ pretty (length (seen t));
  class_name _ := "Tally"
|}.

(** A regressor that predicts the number of observations it was trained
    on, so that its first prediction is the falsy [0]. *)
#[global] Instance counting : Predictor Z := {|
  predict_one m _ := (PyInt m, m);
  predict_proba_one m _ := (PyNone, m);
  fit_one m _ _ := m + 1;
  is_classifier _ := false;
  memory_usage _ := "28 B";
  model_repr _ := "Counting"
|}.

#[global] Instance tally_of_regressor : Metric tally Z := {|
  works_with t _ := negb (for_classifiers t);
  requires_labels t := hard_labels t;
  update t y_true y_pred :=
    Tally (for_classifiers t) (hard_labels t) (seen t ++ [(y_true, y_pred)]);
  metric_repr t := "Tally: " +:+ pretty (length (seen t));
  class_name _ := "Tally"
|}.

(** [f'{n:02d}'] for minutes and seconds. *)
Definition two_digits (n : N) : string :=
  if (n <? 10)%N then "0" +:+ pretty n else pretty n.

(** [str(dt.timedelta(seconds=s))]: [H:MM:SS], after the days if any. *)
Definition timedelta_repr (s : N) : string :=
  let days := (s / 86400)%N in
  let rest := (s mod 86400)%N in
  (match days with
   | 0%N => ""
   | 1%N => "1 day, "
   | _ => pretty days +:+ " days, "
   end)
  +:+ pretty (rest / 3600)%N +:+ ":" +:+ two_digits ((rest / 60) mod 60)%N
  +:+ ":" +:+ two_digits (rest mod 60)%N.

(** A clock that reads whole seconds, one more at each reading. *)
#[global] Instance second_clock : Clock nat := {|
  perf_counter k := k;
  elapsed_repr start now := timedelta_repr (N.of_nat (now - start))
|}.

Definition x0 : pyval := PyDict [(PyStr "a", PyInt 1)].
Definition soft : tally := Tally true false [].
Definition hard : tally := Tally true true [].
Definition regression_only : tally := Tally false false [].
Definition quiet : options := Options 0 false false.

(** The state in which a run on the small model leaves things. *)
Definition after (es : list event) (m : nat) (t : tally) (o : options) :
    @world nat tally :=
  (progressive_val_score es m t o).2.

Definition after_regressor (es : list event) (m : Z) (t : tally)
    (o : options) : @world Z tally :=
  (progressive_val_score es m t o).2.

(** Two observations whose labels come one event late. *)
Definition delayed : list event :=
  [(0, x0, PyNone); (1, x0, PyNone); (0, x0, PyBool true); (1, x0, PyBool false)].

(** Ten observations, with no delay. *)
Definition ten : list event :=
  simulate_qa_no_delay (replicate 10 (x0, PyBool true)).

End Demo.

(** ** Reading a run off its trace and its stream *)

(** The events a trace accounts for: a prediction call stands for the
    question it was made on, a training call for the answer; the metric
    updates are left out. *)
Fixpoint skeleton (cs : list call) : list event :=
  match cs with
  | [] => []
  | CPredict i x _ :: cs' => (i, x, PyNone) :: skeleton cs'
  | CUpdate _ _ _ :: cs' => skeleton cs'
  | CFit i x y :: cs' => (i, x, y) :: skeleton cs'
  end.

(** The label carried by the last event on index [i], if there is one. *)
Fixpoint last_label (es : list event) (i : Z) : option pyval :=
  match es with
  | [] => None
  | (j, _, y) :: es' =>
      match last_label es' i with
      | Some l => Some l
      | None => if decide (j = i) then Some y else None
      end
  end.

(** A character of a numeral that is not the thousands separator. *)
Definition no_comma (c : ascii) : Prop := c <> ","%char.

Section Replay.
Context {M T : Type} `{!Predictor M, !Metric T M}.

(** What a run does to the model and to its own bookkeeping, the metric
    and the printed lines apart. *)
Definition learned (w : @world M T) : M * gmap Z pyval * Z * list call * nat :=
  (model w, preds w, n_total_answers w, calls w, pulled w).

(** [replays proba cs m t m' t']: making the calls [cs] one after the
    other on the model [m] and the metric [t] gives the predictions that
    [cs] records and leaves the model [m'] and the metric [t']. *)
Inductive replays (proba : bool) : list call -> M -> T -> M -> T -> Prop :=
| replays_nil m t : replays proba [] m t m t
| replays_predict i x cs m t m' t' :
    replays proba cs (pred_func proba m x).2 t m' t' ->
    replays proba (CPredict i x (pred_func proba m x).1 :: cs) m t m' t'
| replays_update i y y_pred cs m t m' t' :
    replays proba cs m (update t y y_pred) m' t' ->
    replays proba (CUpdate i y y_pred :: cs) m t m' t'
| replays_fit i x y cs m t m' t' :
    replays proba cs (fit_one m x y) t m' t' ->
    replays proba (CFit i x y :: cs) m t m' t'.

End Replay.
(** * Properties *)

Lemma append_assoc (a b c : string) : (a +:+ b) +:+ c = a +:+ b +:+ c.
Proof.
  induction a as [|ch a IH]; [reflexivity|].
  change (String ch ((a +:+ b) +:+ c) = String ch (a +:+ b +:+ c)).
  now rewrite IH.
Qed.

Section Facts.
Context {M T C : Type} `{!Predictor M, !Metric T M, !Clock C}.
Implicit Types (w : @world M T) (o : options) (es : list event).
Implicit Types (start : option C) (proba : bool).

(** *** What the diagnostics leave alone *)

Lemma diagnostics_core o start w : core (diagnostics o start w) = core w.
Proof.
  unfold diagnostics.
  destruct (negb _ && _); [|reflexivity].
  destruct (show_time o), start; reflexivity.
Qed.

Lemma core_proj w1 w2 :
  core w1 = core w2 ->
  model w1 = model w2 /\ metric w1 = metric w2 /\ preds w1 = preds w2 /\
  n_total_answers w1 = n_total_answers w2 /\ calls w1 = calls w2 /\
  pulled w1 = pulled w2.
Proof. unfold core. intros Heq. injection Heq as -> -> -> -> -> ->. auto 10. Qed.

Lemma diagnostics_proj o start w :
  model (diagnostics o start w) = model w /\
  metric (diagnostics o start w) = metric w /\
  preds (diagnostics o start w) = preds w /\
  n_total_answers (diagnostics o start w) = n_total_answers w /\
  calls (diagnostics o start w) = calls w /\
  pulled (diagnostics o start w) = pulled w.
Proof. apply core_proj, diagnostics_core. Qed.

(** *** The loop over a concatenation *)

Lemma loop_app o proba start es1 es2 w :
  loop o proba start (es1 ++ es2) w =
  match loop o proba start es1 w with
  | (Returned, w') => loop o proba start es2 w'
  | (Raised err, w') => (Raised err, w')
  end.
Proof.
  revert w. induction es1 as [|e es1 IH]; intros w; simpl; [reflexivity|].
  destruct (step o proba start e w) as [[|err] w']; [apply IH | reflexivity].
Qed.

Lemma loop_cons o proba start e es w :
  loop o proba start (e :: es) w =
  match step o proba start e w with
  | (Returned, w') => loop o proba start es w'
  | (Raised err, w') => (Raised err, w')
  end.
Proof. reflexivity. Qed.

Lemma loop_snoc o proba start es e w w1 :
  loop o proba start es w = (Returned, w1) ->
  loop o proba start (es ++ [e]) w = step o proba start e w1.
Proof.
  intros Hrun. rewrite loop_app, Hrun. simpl.
  destruct (step o proba start e w1) as [[|err] w']; reflexivity.
Qed.

Lemma loop_prefix o proba start es1 es2 w w2 :
  loop o proba start (es1 ++ es2) w = (Returned, w2) ->
  exists w1, loop o proba start es1 w = (Returned, w1) /\
             loop o proba start es2 w1 = (Returned, w2).
Proof.
  rewrite loop_app.
  destruct (loop o proba start es1 w) as [[|err] w1]; [eauto | discriminate].
Qed.

(** *** One iteration, by kind of event *)

Lemma step_question o proba start i x w :
  step o proba start (i, x, PyNone) w = (Returned, question proba i x (pull w)).
Proof. reflexivity. Qed.

Lemma step_answer o proba start i x y y_pred w :
  is_none y = false -> preds w !! i = Some y_pred ->
  step o proba start (i, x, y) w =
  (Returned, diagnostics o start (answer i x y y_pred (pull w))).
Proof. intros Hy Hp. unfold step. rewrite Hy. simpl. now rewrite Hp. Qed.

Lemma step_missing o proba start i x y w :
  is_none y = false -> preds w !! i = None ->
  step o proba start (i, x, y) w = (Raised (KeyError i), pull w).
Proof. intros Hy Hp. unfold step. rewrite Hy. simpl. now rewrite Hp. Qed.

Lemma is_none_true y : is_none y = true -> y = PyNone.
Proof. destruct y; simpl; congruence. Qed.

(** The three cases of an iteration. *)
Lemma step_cases o proba start i x y w :
  (y = PyNone /\
   step o proba start (i, x, y) w = (Returned, question proba i x (pull w))) \/
  (is_none y = false /\ preds w !! i = None /\
   step o proba start (i, x, y) w = (Raised (KeyError i), pull w)) \/
  (exists y_pred, is_none y = false /\ preds w !! i = Some y_pred /\
   step o proba start (i, x, y) w =
   (Returned, diagnostics o start (answer i x y y_pred (pull w)))).
Proof.
  destruct (is_none y) eqn:Hy.
  - left. apply is_none_true in Hy. subst y. split; reflexivity.
  - right. destruct (preds w !! i) as [y_pred|] eqn:Hp.
    + right. exists y_pred. auto using step_answer.
    + left. auto using step_missing.
Qed.

(** *** The call as a whole *)

Lemma pvs_compatible es (m : M) (t : T) o :
  works_with t m = true ->
  exists start k, forall es',
    progressive_val_score es' m t o =
    loop o (choose_proba m t) start es' (init m t k).
Proof.
  intros Hok. unfold progressive_val_score. rewrite Hok. simpl.
  destruct (show_time o); eauto.
Qed.

Lemma pvs_returned es (m : M) (t : T) o w :
  progressive_val_score es m t o = (Returned, w) -> works_with t m = true.
Proof.
  unfold progressive_val_score.
  destruct (works_with t m); [reflexivity | discriminate].
Qed.

(** *** Runs that differ in their diagnostics only *)

Lemma step_core o1 o2 proba start1 start2 e w1 w2 :
  core w1 = core w2 ->
  (step o1 proba start1 e w1).1 = (step o2 proba start2 e w2).1 /\
  core (step o1 proba start1 e w1).2 = core (step o2 proba start2 e w2).2.
Proof.
  intros Hcore. apply core_proj in Hcore.
  destruct Hcore as (Hm & Ht & Hp & Hn & Hc & Hk).
  destruct e as [[i x] y]. unfold step.
  destruct (is_none y).
  - split; [reflexivity|]. unfold question, core. simpl.
    rewrite Hm, Ht, Hp, Hn, Hc, Hk.
    destruct (pred_func proba (model w2) x); reflexivity.
  - simpl. rewrite Hp. destruct (preds w2 !! i) as [y_pred|]; simpl.
    + split; [reflexivity|]. rewrite !diagnostics_core.
      unfold answer, core. simpl. now rewrite Hm, Ht, Hp, Hn, Hc, Hk.
    + split; [reflexivity|]. unfold core. simpl.
      now rewrite Hm, Ht, Hp, Hn, Hc, Hk.
Qed.

Lemma loop_core o1 o2 proba start1 start2 es w1 w2 :
  core w1 = core w2 ->
  (loop o1 proba start1 es w1).1 = (loop o2 proba start2 es w2).1 /\
  core (loop o1 proba start1 es w1).2 = core (loop o2 proba start2 es w2).2.
Proof.
  revert w1 w2. induction es as [|e es IH]; intros w1 w2 Hcore; simpl.
  - auto.
  - destruct (step_core o1 o2 proba start1 start2 e w1 w2 Hcore) as [Ho Hc].
    destruct (step o1 proba start1 e w1) as [[|err1] w1'],
             (step o2 proba start2 e w2) as [[|err2] w2'];
      simpl in *; try discriminate; auto.
Qed.

(** C3: when the metric declares itself incompatible with the model, the
    call raises [ValueError] before anything is pulled from the stream: no
    prediction, no metric update and no training call is made, nothing is
    printed, and the model and the metric are left as they were. *)
Theorem incompatible_metric_raises_first es (m : M) (t : T) o :
  works_with t m = false ->
  exists msg w,
    progressive_val_score es m t o = (Raised (ValueError msg), w) /\
    pulled w = 0%nat /\ calls w = [] /\ stdout w = [] /\
    model w = m /\ metric w = t /\ preds w = ∅.
Proof.
  intros Hbad. unfold progressive_val_score. rewrite Hbad. simpl.
  eexists _, _. split; [reflexivity|]. simpl. auto 10.
Qed.

(** C4: an answer event whose index has no pending prediction makes the
    call fail with [KeyError] on that index; the error reaches the caller
    (the events that follow are not processed), and that event updates no
    metric, trains no model and leaves the pending predictions as they
    were. *)
Theorem missing_prediction_is_fatal es1 es2 i x y (m : M) (t : T) o w1 :
  progressive_val_score es1 m t o = (Returned, w1) ->
  preds w1 !! i = None ->
  is_none y = false ->
  exists w,
    progressive_val_score (es1 ++ (i, x, y) :: es2) m t o
      = (Raised (KeyError i), w) /\
    metric w = metric w1 /\ model w = model w1 /\ calls w = calls w1 /\
    preds w = preds w1 /\ n_total_answers w = n_total_answers w1 /\
    stdout w = stdout w1.
Proof.
  intros Hrun Hnone Hy.
  destruct (pvs_compatible es1 m t o (pvs_returned _ _ _ _ _ Hrun))
    as (start & k & Hloop).
  rewrite Hloop in Hrun. exists (pull w1).
  split; [|simpl; auto 10].
  rewrite Hloop, loop_app, Hrun, loop_cons.
  now rewrite (step_missing o _ start i x y w1 Hy Hnone).
Qed.

(** C8: two runs on the same stream, model and metric that differ only in
    [print_every], [show_time] and [show_memory] end the same way, return
    the same metric and leave the model in the same state; they also make
    the same calls in the same order. *)
Theorem diagnostics_do_not_interfere es (m : M) (t : T) (pe1 pe2 : Z)
    (st1 st2 sm1 sm2 : bool) :
  let r1 := progressive_val_score es m t (Options pe1 st1 sm1) in
  let r2 := progressive_val_score es m t (Options pe2 st2 sm2) in
  r1.1 = r2.1 /\ metric r1.2 = metric r2.2 /\ model r1.2 = model r2.2 /\
  calls r1.2 = calls r2.2 /\ preds r1.2 = preds r2.2.
Proof.
  intros r1 r2.
  assert (Hboth : r1.1 = r2.1 /\ core r1.2 = core r2.2).
  { subst r1 r2. unfold progressive_val_score.
    destruct (works_with t m); simpl; [|auto].
    destruct st1, st2; simpl; apply loop_core; reflexivity. }
  destruct Hboth as [Hout Hcore]. apply core_proj in Hcore. tauto.
Qed.

(** *** The guard on the prediction *)

Lemma feeds_metric_false y_pred :
  feeds_metric y_pred = false <-> y_pred = PyDict [] \/ y_pred = PyNone.
Proof.
  unfold feeds_metric. split.
  - destruct y_pred as [| | | | |[|kv items]]; simpl; try discriminate; auto.
  - intros [-> | ->]; reflexivity.
Qed.

Lemma feeds_metric_true y_pred :
  feeds_metric y_pred = true <-> y_pred <> PyDict [] /\ y_pred <> PyNone.
Proof.
  split.
  - intros Hfed. split; intros ->; discriminate.
  - intros [Hd Hn]. destruct (feeds_metric y_pred) eqn:Hfed; [reflexivity|].
    apply feeds_metric_false in Hfed. tauto.
Qed.

(** *** An answer reached by a run *)

Lemma pvs_snoc es e (m : M) (t : T) o w1 :
  progressive_val_score es m t o = (Returned, w1) ->
  exists start,
    progressive_val_score (es ++ [e]) m t o =
    step o (choose_proba m t) start e w1.
Proof.
  intros Hrun.
  destruct (pvs_compatible es m t o (pvs_returned _ _ _ _ _ Hrun))
    as (start & k & Hloop).
  exists start. rewrite Hloop in *. now apply loop_snoc.
Qed.

Lemma pvs_answer es1 i x y y_pred (m : M) (t : T) o w1 :
  progressive_val_score es1 m t o = (Returned, w1) ->
  is_none y = false ->
  preds w1 !! i = Some y_pred ->
  exists w2,
    progressive_val_score (es1 ++ [(i, x, y)]) m t o = (Returned, w2) /\
    model w2 = fit_one (model w1) x y /\
    metric w2 = (if feeds_metric y_pred then update (metric w1) y y_pred
                 else metric w1) /\
    calls w2 = calls w1 ++ (if feeds_metric y_pred then [CUpdate i y y_pred]
                            else []) ++ [CFit i x y] /\
    preds w2 = delete i (preds w1) /\
    n_total_answers w2 = n_total_answers w1 + 1.
Proof.
  intros Hrun Hy Hp.
  destruct (pvs_snoc es1 (i, x, y) m t o w1 Hrun) as [start Hstep].
  rewrite (step_answer o _ start i x y y_pred w1 Hy Hp) in Hstep.
  eexists. split; [exact Hstep|].
  destruct (diagnostics_proj o start (answer i x y y_pred (pull w1)))
    as (-> & -> & -> & -> & -> & _).
  simpl. auto 10.
Qed.

(** *** Training calls of a run *)

Lemma fits_app cs1 cs2 : fits (cs1 ++ cs2) = fits cs1 ++ fits cs2.
Proof.
  induction cs1 as [|c cs1 IH]; simpl; [reflexivity|].
  destruct c; simpl; now rewrite IH.
Qed.

Lemma answered_app es1 es2 : answered (es1 ++ es2) = answered es1 ++ answered es2.
Proof.
  induction es1 as [|[[i x] y] es1 IH]; simpl; [reflexivity|].
  destruct (is_none y); simpl; now rewrite IH.
Qed.

Lemma asked_app es1 es2 : asked (es1 ++ es2) = asked es1 ++ asked es2.
Proof.
  induction es1 as [|[[i x] y] es1 IH]; simpl; [reflexivity|].
  destruct (is_none y); simpl; now rewrite IH.
Qed.

Lemma step_fits o proba start e w w' :
  step o proba start e w = (Returned, w') ->
  fits (calls w') = fits (calls w) ++ answered [e].
Proof.
  destruct e as [[i x] y].
  destruct (step_cases o proba start i x y w)
    as [[-> ->] | [(Hy & Hp & ->) | (y_pred & Hy & Hp & ->)]];
    intros Heq; inversion Heq; subst w'; clear Heq.
  - unfold question. simpl. destruct (pred_func proba (model w) x). simpl.
    rewrite fits_app. simpl. reflexivity.
  - destruct (diagnostics_proj o start (answer i x y y_pred (pull w)))
      as (_ & _ & _ & _ & -> & _).
    simpl. rewrite Hy, !fits_app. destruct (feeds_metric y_pred); reflexivity.
Qed.

Lemma loop_fits o proba start es w w' :
  loop o proba start es w = (Returned, w') ->
  fits (calls w') = fits (calls w) ++ answered es.
Proof.
  revert w. induction es as [|e es IH]; intros w; simpl.
  - intros Heq. inversion Heq. now rewrite app_nil_r.
  - destruct (step o proba start e w) as [[|err] w1] eqn:Hstep; [|discriminate].
    intros Hrun. rewrite (IH _ Hrun), (step_fits _ _ _ _ _ _ Hstep).
    rewrite <- app_assoc. f_equal. symmetry. apply (answered_app [e] es).
Qed.

Lemma pvs_fits es (m : M) (t : T) o w :
  progressive_val_score es m t o = (Returned, w) ->
  fits (calls w) = answered es.
Proof.
  intros Hrun.
  destruct (pvs_compatible es m t o (pvs_returned _ _ _ _ _ Hrun))
    as (start & k & Hloop).
  rewrite Hloop in Hrun. now rewrite (loop_fits _ _ _ _ _ _ Hrun).
Qed.

(** C2: at an answer event reached by a run, with the pending prediction
    [y_pred] of its index: if [y_pred] is the empty mapping or [None] the
    metric is left alone and the only call made is the training call on
    [(x, y)]; otherwise the metric is updated with [(y, y_pred)], true
    label first, and the model is trained after that. Either way the model
    is [fit_one] of what it was, and the training calls of a run are
    exactly its answered observations, one call each, in order. *)
Theorem answer_updates_then_trains_once es1 i x y y_pred (m : M) (t : T) o w1 :
  progressive_val_score es1 m t o = (Returned, w1) ->
  is_none y = false ->
  preds w1 !! i = Some y_pred ->
  exists w2,
    progressive_val_score (es1 ++ [(i, x, y)]) m t o = (Returned, w2) /\
    model w2 = fit_one (model w1) x y /\
    (y_pred = PyDict [] \/ y_pred = PyNone ->
       metric w2 = metric w1 /\ calls w2 = calls w1 ++ [CFit i x y]) /\
    (y_pred <> PyDict [] /\ y_pred <> PyNone ->
       metric w2 = update (metric w1) y y_pred /\
       calls w2 = calls w1 ++ [CUpdate i y y_pred; CFit i x y]) /\
    fits (calls w2) = answered es1 ++ [(i, x, y)] /\
    forall es2 w, progressive_val_score (es1 ++ (i, x, y) :: es2) m t o
                  = (Returned, w) ->
      fits (calls w) = answered es1 ++ (i, x, y) :: answered es2.
Proof.
  intros Hrun Hy Hp.
  destruct (pvs_answer es1 i x y y_pred m t o w1 Hrun Hy Hp)
    as (w2 & Hrun2 & Hm & Ht & Hc & _).
  exists w2. repeat split; try assumption.
  - apply feeds_metric_false in H. now rewrite H in Ht.
  - apply feeds_metric_false in H. now rewrite H in Hc.
  - assert (Hfed : feeds_metric y_pred = true) by now apply feeds_metric_true.
    now rewrite Hfed in Ht.
  - assert (Hfed : feeds_metric y_pred = true) by now apply feeds_metric_true.
    now rewrite Hfed in Hc.
  - rewrite (pvs_fits _ _ _ _ _ Hrun2), answered_app. simpl. now rewrite Hy.
  - intros es2 w Hw. rewrite (pvs_fits _ _ _ _ _ Hw), answered_app. simpl.
    now rewrite Hy.
Qed.

(** C10: at an answer event reached by a run, the metric update is left
    out only when the pending prediction is exactly the empty mapping or
    exactly [None]; every other value is passed to the metric, among them
    the falsy [0], [False], [0.0] and the empty string. *)
Theorem only_empty_or_none_skips_metric es1 i x y y_pred (m : M) (t : T) o w1 :
  progressive_val_score es1 m t o = (Returned, w1) ->
  is_none y = false ->
  preds w1 !! i = Some y_pred ->
  exists w2,
    progressive_val_score (es1 ++ [(i, x, y)]) m t o = (Returned, w2) /\
    (calls w2 = calls w1 ++ [CFit i x y] <->
       y_pred = PyDict [] \/ y_pred = PyNone) /\
    (calls w2 = calls w1 ++ [CUpdate i y y_pred; CFit i x y] <->
       y_pred <> PyDict [] /\ y_pred <> PyNone) /\
    (y_pred ∈ [PyInt 0; PyBool false; PyFloat 0%float; PyStr ""] ->
       calls w2 = calls w1 ++ [CUpdate i y y_pred; CFit i x y] /\
       metric w2 = update (metric w1) y y_pred).
Proof.
  intros Hrun Hy Hp.
  destruct (pvs_answer es1 i x y y_pred m t o w1 Hrun Hy Hp)
    as (w2 & Hrun2 & _ & Ht & Hc & _).
  exists w2. split; [assumption|].
  rewrite <- feeds_metric_false, <- feeds_metric_true.
  destruct (feeds_metric y_pred) eqn:Hfed; simpl in Hc; rewrite Hc, Ht.
  - repeat split; try (intros; congruence).
    intros Heq. apply app_inv_head in Heq. discriminate.
  - repeat split; try (intros; congruence).
    + intros Heq. apply app_inv_head in Heq. discriminate.
    + exfalso. apply feeds_metric_false in Hfed.
      rewrite !elem_of_cons, elem_of_nil in H.
      destruct Hfed as [-> | ->], H as [? | [? | [? | [? | []]]]]; discriminate.
    + exfalso. apply feeds_metric_false in Hfed.
      rewrite !elem_of_cons, elem_of_nil in H.
      destruct Hfed as [-> | ->], H as [? | [? | [? | [? | []]]]]; discriminate.
Qed.

(** *** Order of the calls *)

Lemma update_in_order_app cs new k i y y_pred :
  update_in_order cs k i y y_pred -> update_in_order (cs ++ new) k i y y_pred.
Proof.
  intros [(j & x & Hjk & Hj & Hno) [x' Hnext]].
  assert (Hlen : (S k < length cs)%nat) by (eapply lookup_lt_Some; eassumption).
  split.
  - exists j, x. split; [assumption|]. split.
    + rewrite lookup_app_l by lia. assumption.
    + intros n x1 y1 Hn. rewrite lookup_app_l by lia. now apply Hno.
  - exists x'. rewrite lookup_app_l by lia. assumption.
Qed.

Lemma ordered_app cs new :
  ordered cs ->
  (forall k i y y_pred, new !! k = Some (CUpdate i y y_pred) ->
     update_in_order (cs ++ new) (length cs + k) i y y_pred) ->
  ordered (cs ++ new).
Proof.
  intros Hcs Hnew k i y y_pred Hk.
  destruct (decide (k < length cs)%nat) as [Hlt | Hge].
  - rewrite lookup_app_l in Hk by assumption.
    apply update_in_order_app, Hcs, Hk.
  - rewrite lookup_app_r in Hk by lia.
    replace k with (length cs + (k - length cs))%nat by lia.
    apply Hnew, Hk.
Qed.

Lemma pending_traced_app (ps : gmap Z pyval) cs new :
  pending_traced ps cs ->
  (forall i y_pred x y, ps !! i = Some y_pred -> CFit i x y ∉ new) ->
  pending_traced ps (cs ++ new).
Proof.
  intros Hold Hnew i y_pred Hi.
  destruct (Hold i y_pred Hi) as (j & x & Hj & Hno).
  assert (Hlen : (j < length cs)%nat) by (eapply lookup_lt_Some; eassumption).
  exists j, x. split; [rewrite lookup_app_l by lia; assumption|].
  intros n x1 y1 Hn Hfit.
  destruct (decide (n < length cs)%nat) as [Hlt | Hge].
  - rewrite lookup_app_l in Hfit by assumption. now apply (Hno n x1 y1).
  - rewrite lookup_app_r in Hfit by lia.
    apply (Hnew i y_pred x1 y1 Hi). eapply list_elem_of_lookup_2, Hfit.
Qed.

Lemma question_keeps_order proba i x w :
  ordered (calls w) -> pending_traced (preds w) (calls w) ->
  ordered (calls (question proba i x w)) /\
  pending_traced (preds (question proba i x w)) (calls (question proba i x w)).
Proof.
  intros Hord Hpend. unfold question.
  destruct (pred_func proba (model w) x) as [y_pred m']. simpl. split.
  - apply ordered_app; [assumption|].
    intros [|k] i' y' p' Hk; simpl in Hk; [discriminate|].
    rewrite lookup_nil in Hk. discriminate.
  - intros i' p' Hi'. destruct (decide (i = i')) as [<- | Hne].
    + rewrite lookup_insert_eq in Hi'. injection Hi' as <-.
      exists (length (calls w)), x. split.
      * rewrite lookup_app_r by lia. now rewrite Nat.sub_diag.
      * intros n x1 y1 Hn Hfit. apply lookup_lt_Some in Hfit.
        rewrite length_app in Hfit. simpl in Hfit. lia.
    + rewrite lookup_insert_ne in Hi' by assumption.
      revert i' p' Hi' Hne.
      assert (Hall : pending_traced (preds w)
                       (calls w ++ [CPredict i x y_pred])).
      { apply pending_traced_app; [assumption|].
        intros j p x1 y1 _ Hin. apply list_elem_of_singleton in Hin.
        discriminate. }
      intros i' p' Hi' _. now apply Hall.
Qed.

Lemma answer_keeps_order i x y y_pred w :
  preds w !! i = Some y_pred ->
  ordered (calls w) -> pending_traced (preds w) (calls w) ->
  ordered (calls (answer i x y y_pred w)) /\
  pending_traced (preds (answer i x y y_pred w)) (calls (answer i x y y_pred w)).
Proof.
  intros Hi Hord Hpend. unfold answer. simpl. split.
  - apply ordered_app; [assumption|].
    destruct (feeds_metric y_pred); simpl.
    + intros [|[|k]] i' y' p' Hk; simpl in Hk; try discriminate;
        try (rewrite lookup_nil in Hk; discriminate).
      injection Hk as <- <- <-. rewrite Nat.add_0_r.
      destruct (Hpend i y_pred Hi) as (j & x1 & Hj & Hno).
      assert (Hlen : (j < length (calls w))%nat)
        by (eapply lookup_lt_Some; eassumption).
      split.
      * exists j, x1. split; [assumption|]. split.
        -- rewrite lookup_app_l by lia. assumption.
        -- intros n x2 y2 Hn Hfit.
           destruct (decide (n < length (calls w))%nat) as [Hlt | Hge].
           ++ rewrite lookup_app_l in Hfit by assumption.
              apply (Hno n x2 y2); [lia | assumption].
           ++ replace n with (length (calls w)) in Hfit by lia.
              rewrite lookup_app_r, Nat.sub_diag in Hfit by lia.
              discriminate.
      * exists x. rewrite lookup_app_r by lia.
        now replace (S (length (calls w)) - length (calls w))%nat
          with 1%nat by lia.
    + intros [|k] i' y' p' Hk; simpl in Hk; [discriminate|].
      rewrite ?lookup_nil in Hk. discriminate.
  - intros i' p' Hi'.
    destruct (decide (i = i')) as [<- | Hne];
      [rewrite lookup_delete_eq in Hi'; discriminate|].
    rewrite lookup_delete_ne in Hi' by assumption.
    destruct (Hpend i' p' Hi') as (j & x1 & Hj & Hno).
    assert (Hlen : (j < length (calls w))%nat)
      by (eapply lookup_lt_Some; eassumption).
    exists j, x1. split; [rewrite lookup_app_l by lia; assumption|].
    intros n x2 y2 Hn Hfit.
    destruct (decide (n < length (calls w))%nat) as [Hlt | Hge].
    + rewrite lookup_app_l in Hfit by assumption. now apply (Hno n x2 y2).
    + rewrite lookup_app_r in Hfit by lia.
      apply list_elem_of_lookup_2 in Hfit.
      destruct (feeds_metric y_pred); simpl in Hfit;
        rewrite ?elem_of_cons, elem_of_nil in Hfit;
        intuition congruence.
Qed.

Lemma step_keeps_order o proba start e w :
  ordered (calls w) -> pending_traced (preds w) (calls w) ->
  ordered (calls (step o proba start e w).2) /\
  pending_traced (preds (step o proba start e w).2)
                 (calls (step o proba start e w).2).
Proof.
  intros Hord Hpend. destruct e as [[i x] y].
  destruct (step_cases o proba start i x y w)
    as [[-> ->] | [(Hy & Hp & ->) | (y_pred & Hy & Hp & ->)]]; simpl.
  - now apply question_keeps_order.
  - auto.
  - destruct (diagnostics_proj o start (answer i x y y_pred (pull w)))
      as (_ & _ & -> & _ & -> & _).
    now apply answer_keeps_order.
Qed.

Lemma loop_keeps_order o proba start es w :
  ordered (calls w) -> pending_traced (preds w) (calls w) ->
  ordered (calls (loop o proba start es w).2).
Proof.
  revert w. induction es as [|e es IH]; intros w Hord Hpend; simpl.
  - assumption.
  - destruct (step_keeps_order o proba start e w Hord Hpend) as [Hord' Hpend'].
    destruct (step o proba start e w) as [[|err] w']; simpl in *; auto.
Qed.

Lemma pvs_ordered es (m : M) (t : T) o :
  ordered (calls (progressive_val_score es m t o).2).
Proof.
  assert (Hnil : ordered []) by (intros k i y p Hk; discriminate).
  unfold progressive_val_score. destruct (works_with t m); simpl.
  - destruct (show_time o); apply loop_keeps_order; simpl; try assumption;
      intros i p Hi; rewrite lookup_empty in Hi; discriminate.
  - assumption.
Qed.

(** C1: in the trace of any run every metric update is fed a prediction
    computed earlier, at a question on the same index, with no training on
    that index in between, and is followed at once by the training call.
    An event reached by a run does this: a question computes a prediction
    and stores it, with no metric update and no training call; an answer
    whose prediction is pending makes the metric update, if any, and then
    the training call. *)
Theorem prediction_precedes_update_precedes_training
    es es1 i x y (m : M) (t : T) o w1 :
  progressive_val_score es1 m t o = (Returned, w1) ->
  let r := progressive_val_score (es1 ++ [(i, x, y)]) m t o in
  ordered (calls (progressive_val_score es m t o).2) /\
  if is_none y then
    r.1 = Returned /\
    (pred_func (choose_proba m t) (model w1) x).2 = model r.2 /\
    calls r.2 =
      calls w1 ++ [CPredict i x (pred_func (choose_proba m t) (model w1) x).1] /\
    preds r.2 =
      <[i := (pred_func (choose_proba m t) (model w1) x).1]> (preds w1) /\
    metric r.2 = metric w1 /\
    fits (calls r.2) = fits (calls w1)
  else
    match preds w1 !! i with
    | Some y_pred =>
        r.1 = Returned /\
        calls r.2 =
          calls w1 ++ (if feeds_metric y_pred then [CUpdate i y y_pred] else [])
                   ++ [CFit i x y]
    | None => r.1 = Raised (KeyError i) /\ calls r.2 = calls w1
    end.
Proof.
  intros Hrun r. split; [apply pvs_ordered|].
  destruct (pvs_snoc es1 (i, x, y) m t o w1 Hrun) as [start Hstep].
  subst r. rewrite Hstep.
  destruct (step_cases o (choose_proba m t) start i x y w1)
    as [[-> ->] | [(Hy & Hp & ->) | (y_pred & Hy & Hp & ->)]]; simpl.
  - unfold question. simpl.
    destruct (pred_func (choose_proba m t) (model w1) x) as [y_pred m'].
    simpl. rewrite fits_app. simpl. rewrite app_nil_r. auto 10.
  - rewrite Hy, Hp. auto.
  - rewrite Hy, Hp.
    destruct (diagnostics_proj o start (answer i x y y_pred (pull w1)))
      as (_ & _ & _ & _ & -> & _).
    auto.
Qed.

(** *** Pending predictions *)

Lemma answered_ids_app es1 es2 :
  answered_ids (es1 ++ es2) = answered_ids es1 ++ answered_ids es2.
Proof. unfold answered_ids. now rewrite answered_app, fmap_app. Qed.

Lemma answered_ids_split es i :
  i ∈ answered_ids es ->
  exists es1 x y es2, es = es1 ++ (i, x, y) :: es2 /\ is_none y = false.
Proof.
  induction es as [|[[j x] y] es IH]; unfold answered_ids; simpl.
  - intros Hin. now apply elem_of_nil in Hin.
  - destruct (is_none y) eqn:Hy.
    + intros Hin. destruct (IH Hin) as (es1 & x' & y' & es2 & -> & Hy').
      now exists ((j, x, y) :: es1), x', y', es2.
    + simpl. intros Hin. apply elem_of_cons in Hin as [-> | Hin].
      * now exists [], x, y, es.
      * destruct (IH Hin) as (es1 & x' & y' & es2 & -> & Hy').
        now exists ((j, x, y) :: es1), x', y', es2.
Qed.

Lemma pvs_nil (m : M) (t : T) o :
  works_with t m = true ->
  exists k, progressive_val_score [] m t o = (Returned, init m t k).
Proof.
  intros Hok. destruct (pvs_compatible [] m t o Hok) as (start & k & Hloop).
  exists k. now rewrite Hloop.
Qed.

Lemma pvs_prefix es1 es2 (m : M) (t : T) o w :
  progressive_val_score (es1 ++ es2) m t o = (Returned, w) ->
  exists w1, progressive_val_score es1 m t o = (Returned, w1).
Proof.
  intros Hrun.
  destruct (pvs_compatible es1 m t o (pvs_returned _ _ _ _ _ Hrun))
    as (start & k & Hloop).
  rewrite Hloop in Hrun. apply loop_prefix in Hrun as (w1 & Hw1 & _).
  exists w1. now rewrite Hloop.
Qed.

(** The part of well-formedness that every prefix inherits. *)
Lemma asked_first_prefix es1 es2 :
  (forall l i x y r, es1 ++ es2 = l ++ (i, x, y) :: r ->
     is_none y = false -> i ∈ asked l) ->
  forall l i x y r, es1 = l ++ (i, x, y) :: r ->
    is_none y = false -> i ∈ asked l.
Proof.
  intros Hall l i x y r -> Hy.
  apply (Hall l i x y (r ++ es2)); [|assumption].
  now rewrite <- app_assoc.
Qed.

Lemma pvs_pending_dom es (m : M) (t : T) o :
  works_with t m = true ->
  NoDup (asked es) -> NoDup (answered_ids es) ->
  (forall l i x y r, es = l ++ (i, x, y) :: r ->
     is_none y = false -> i ∈ asked l) ->
  exists w, progressive_val_score es m t o = (Returned, w) /\
            dom (preds w) = outstanding es.
Proof.
  intros Hok. induction es as [|[[i x] y] es IH] using rev_ind;
    intros Hq Ha Hfirst.
  - destruct (pvs_nil m t o Hok) as [k ->]. eexists. split; [reflexivity|].
    unfold outstanding. simpl. clear. set_solver.
  - rewrite asked_app in Hq. rewrite answered_ids_app in Ha.
    apply NoDup_app in Hq as (Hq & Hq' & _).
    apply NoDup_app in Ha as (Ha & Ha' & _).
    destruct (IH Hq Ha (asked_first_prefix _ _ Hfirst)) as (w & Hrun & Hdom).
    destruct (pvs_snoc es (i, x, y) m t o w Hrun) as [start Hstep].
    unfold outstanding in *. rewrite asked_app, answered_ids_app.
    unfold answered_ids in Ha'. unfold answered_ids at 2.
    destruct (step_cases o (choose_proba m t) start i x y w)
      as [[-> Heq] | [(Hy & Hp & Heq) | (y_pred & Hy & Hp & Heq)]];
      rewrite Heq in Hstep; rewrite Hstep; clear Heq Hstep.
    + eexists. split; [reflexivity|].
      unfold question.
      destruct (pred_func (choose_proba m t) (model (pull w)) x)
        as [y_pred m'].
      simpl. rewrite dom_insert_L, Hdom, app_nil_r, list_to_set_snoc_L.
      assert (Hfresh : i ∉ answered_ids es).
      { intros Hin. apply answered_ids_split in Hin
          as (l & x' & y' & r & -> & Hy').
        apply (Hq' i); [|apply list_elem_of_here].
        rewrite asked_app. apply elem_of_app. left.
        apply (Hfirst l i x' y' (r ++ [(i, x, PyNone)])); [|assumption].
        now rewrite <- app_assoc. }
      clear -Hfresh. apply set_eq. intros j. unfold answered_ids in *.
      rewrite elem_of_union, !elem_of_difference, elem_of_union,
        !elem_of_singleton, !elem_of_list_to_set.
      split; [intros [-> | [Hj Hnj]] | intros [[Hj | ->] Hnj]]; auto.
    + exfalso. simpl in Ha'. rewrite Hy in Ha'. simpl in Ha'.
      assert (Hin : i ∈ dom (preds w)).
      { rewrite Hdom. apply elem_of_difference. split.
        - apply elem_of_list_to_set.
          apply (Hfirst es i x y []); [reflexivity | assumption].
        - rewrite elem_of_list_to_set. intros Hin.
          apply (Ha' i Hin). apply list_elem_of_here. }
      apply elem_of_dom in Hin as [p Hin]. congruence.
    + eexists. split; [reflexivity|].
      destruct (diagnostics_proj o start (answer i x y y_pred (pull w)))
        as (_ & _ & -> & _).
      simpl. rewrite Hy. simpl.
      rewrite dom_delete_L, Hdom, app_nil_r, list_to_set_snoc_L.
      clear. apply set_eq. intros j.
      rewrite !elem_of_difference, elem_of_union, !elem_of_singleton.
      tauto.
Qed.

Lemma pvs_pending_bound es (m : M) (t : T) o w :
  progressive_val_score es m t o = (Returned, w) ->
  (size (preds w) + length (answered es) <= length (asked es))%nat.
Proof.
  revert w. induction es as [|[[i x] y] es IH] using rev_ind; intros w Hrun.
  - destruct (pvs_nil m t o (pvs_returned _ _ _ _ _ Hrun)) as [k Hnil].
    rewrite Hnil in Hrun. injection Hrun as <-. simpl.
    rewrite map_size_empty. lia.
  - destruct (pvs_prefix _ _ _ _ _ _ Hrun) as [w1 Hw1].
    specialize (IH w1 Hw1).
    destruct (pvs_snoc es (i, x, y) m t o w1 Hw1) as [start Hstep].
    rewrite Hstep in Hrun. rewrite asked_app, answered_app, !length_app.
    destruct (step_cases o (choose_proba m t) start i x y w1)
      as [[-> Heq] | [(Hy & Hp & Heq) | (y_pred & Hy & Hp & Heq)]];
      rewrite Heq in Hrun; [|discriminate|]; injection Hrun as <-; simpl.
    + unfold question. simpl.
      destruct (pred_func (choose_proba m t) (model w1) x) as [y_pred m'].
      simpl. pose proof (map_size_insert i y_pred (preds w1)) as Hsz.
      destruct (preds w1 !! i); simpl in Hsz; unfold id in Hsz; lia.
    + rewrite Hy. simpl.
      destruct (diagnostics_proj o start (answer i x y y_pred (pull w1)))
        as (_ & _ & -> & _).
      simpl. pose proof (map_size_delete i (preds w1)) as Hsz.
      rewrite Hp in Hsz. simpl in Hsz.
      assert (size (preds w1) <> 0)%nat.
      { intros Hz. apply map_size_empty_inv in Hz. rewrite Hz in Hp.
        rewrite lookup_empty in Hp. discriminate. }
      lia.
Qed.

Lemma well_formed_prefix es1 es2 :
  well_formed (es1 ++ es2) ->
  NoDup (asked es1) /\ NoDup (answered_ids es1) /\
  forall l i x y r, es1 = l ++ (i, x, y) :: r ->
    is_none y = false -> i ∈ asked l.
Proof.
  intros [Hq Ha Hfirst _].
  rewrite asked_app in Hq. rewrite answered_ids_app in Ha.
  apply NoDup_app in Hq as (Hq & _). apply NoDup_app in Ha as (Ha & _).
  split; [assumption|]. split; [assumption|].
  now apply (asked_first_prefix es1 es2).
Qed.

(** C6: on a well-formed finite source in which every question is
    eventually answered the call returns with no pending prediction left.
    The mapping starts empty; after every prefix of the source its keys
    are exactly the indices asked and not yet answered; a question inserts
    an index that is not pending, an answer removes one that is. On any
    source at all, a run that returns holds no more entries than questions
    seen minus answers seen. *)
Theorem pending_predictions_track_outstanding es (m : M) (t : T) o :
  works_with t m = true ->
  well_formed es ->
  exists w,
    progressive_val_score es m t o = (Returned, w) /\
    preds w = ∅ /\
    preds (progressive_val_score [] m t o).2 = ∅ /\
    (forall es1 es2, es = es1 ++ es2 ->
       exists w1,
         progressive_val_score es1 m t o = (Returned, w1) /\
         dom (preds w1) = outstanding es1 /\
         size (preds w1) = size (outstanding es1)) /\
    (forall es1 i x y es2, es = es1 ++ (i, x, y) :: es2 ->
       exists w1 w2,
         progressive_val_score es1 m t o = (Returned, w1) /\
         progressive_val_score (es1 ++ [(i, x, y)]) m t o = (Returned, w2) /\
         if is_none y
         then preds w1 !! i = None /\
              exists y_pred, preds w2 = <[i := y_pred]> (preds w1)
         else is_Some (preds w1 !! i) /\ preds w2 = delete i (preds w1)) /\
    (forall es' w', progressive_val_score es' m t o = (Returned, w') ->
       (size (preds w') + length (answered es') <= length (asked es'))%nat).
Proof.
  intros Hok Hwf.
  assert (Hpre : forall es1 es2, es = es1 ++ es2 ->
            exists w1, progressive_val_score es1 m t o = (Returned, w1) /\
                       dom (preds w1) = outstanding es1).
  { intros es1 es2 ->.
    destruct (well_formed_prefix es1 es2 Hwf) as (Hq & Ha & Hfirst).
    now apply pvs_pending_dom. }
  destruct (Hpre es [] (eq_sym (app_nil_r es))) as (w & Hrun & Hdom).
  exists w. split; [assumption|]. split; [|split; [|split; [|split]]].
  - apply dom_empty_inv_L. rewrite Hdom. unfold outstanding.
    apply set_eq. intros i. rewrite elem_of_difference, !elem_of_list_to_set.
    split; [|intros Hin; now apply elem_of_empty in Hin].
    intros [Hin Hnot]. exfalso. apply Hnot. now apply (wf_all_answered es Hwf).
  - destruct (pvs_nil m t o Hok) as [k ->]. reflexivity.
  - intros es1 es2 Heq. destruct (Hpre es1 es2 Heq) as (w1 & Hw1 & Hdom1).
    exists w1. split; [assumption|]. split; [assumption|].
    now rewrite <- Hdom1, size_dom.
  - intros es1 i x y es2 Heq.
    destruct (Hpre es1 _ Heq) as (w1 & Hw1 & Hdom1).
    destruct (Hpre (es1 ++ [(i, x, y)]) es2) as (w2 & Hw2 & _).
    { rewrite Heq, <- app_assoc. reflexivity. }
    exists w1, w2. split; [assumption|]. split; [assumption|].
    destruct (pvs_snoc es1 (i, x, y) m t o w1 Hw1) as [start Hstep].
    rewrite Hw2 in Hstep.
    destruct (step_cases o (choose_proba m t) start i x y w1)
      as [[-> Hs] | [(Hy & Hp & Hs) | (y_pred & Hy & Hp & Hs)]];
      rewrite Hs in Hstep; [|discriminate|]; injection Hstep as ->.
    + simpl. split.
      * apply not_elem_of_dom. rewrite Hdom1. unfold outstanding.
        rewrite elem_of_difference, elem_of_list_to_set. intros [Hin _].
        pose proof (wf_asked_once es Hwf) as Hq.
        rewrite Heq, asked_app in Hq. simpl in Hq.
        apply NoDup_app in Hq as (_ & Hq & _).
        apply (Hq i Hin). apply list_elem_of_here.
      * unfold question.
        destruct (pred_func (choose_proba m t) (model (pull w1)) x)
          as [y_pred m'].
        now exists y_pred.
    + rewrite Hy. split; [now exists y_pred|].
      now destruct (diagnostics_proj o start (answer i x y y_pred (pull w1)))
        as (_ & _ & -> & _).
  - intros es' w'. apply pvs_pending_bound.
Qed.

(** *** Diagnostic lines *)

Lemma print_counts_snoc pe n :
  print_counts pe (S n) =
  print_counts pe n ++
  (if negb (pe =? 0) && (Z.of_nat (S n) mod pe =? 0) then [Z.of_nat (S n)]
   else []).
Proof.
  unfold print_counts. rewrite seq_S, fmap_app, List.filter_app. reflexivity.
Qed.

Lemma print_counts_zero n : print_counts 0 n = [].
Proof.
  unfold print_counts. induction (Z.of_nat <$> seq 1 n) as [|k l IH];
    simpl; auto.
Qed.

Lemma elem_of_print_counts pe n k :
  k ∈ print_counts pe n <->
  1 <= k <= Z.of_nat n /\ pe <> 0 /\ k mod pe = 0.
Proof.
  unfold print_counts.
  rewrite list_elem_of_In, List.filter_In, <- list_elem_of_In.
  rewrite list_elem_of_fmap, andb_true_iff, negb_true_iff.
  rewrite !Z.eqb_eq, Z.eqb_neq. split.
  - intros [(j & -> & Hj) Hmod]. apply elem_of_seq in Hj. split; [lia|tauto].
  - intros [Hk Hmod]. split; [|tauto].
    exists (Z.to_nat k). split; [lia|]. apply elem_of_seq. lia.
Qed.

Lemma diagnostics_silent o start w :
  negb (print_every o =? 0) && (n_total_answers w mod print_every o =? 0)
    = false ->
  diagnostics o start w = w.
Proof. intros Hoff. unfold diagnostics. now rewrite Hoff. Qed.

Lemma diagnostics_prints o start w :
  negb (print_every o =? 0) && (n_total_answers w mod print_every o =? 0)
    = true ->
  exists line, stdout (diagnostics o start w) = stdout w ++ [line] /\
               line_of_count (n_total_answers w) line.
Proof.
  intros Hon. unfold diagnostics, line_of_count. rewrite Hon.
  destruct (show_time o), start as [s|], (show_memory o); simpl;
    eexists; (split; [reflexivity|]);
    rewrite ?append_assoc; eexists; reflexivity.
Qed.

(** What an iteration adds to the output. *)
Lemma step_stdout o proba start i x y w w' :
  step o proba start (i, x, y) w = (Returned, w') ->
  n_total_answers w' =
    (if is_none y then n_total_answers w else n_total_answers w + 1) /\
  if negb (is_none y) && negb (print_every o =? 0)
     && (n_total_answers w' mod print_every o =? 0)
  then exists line, stdout w' = stdout w ++ [line] /\
                    line_of_count (n_total_answers w') line
  else stdout w' = stdout w.
Proof.
  destruct (step_cases o proba start i x y w)
    as [[-> ->] | [(Hy & Hp & ->) | (y_pred & Hy & Hp & ->)]];
    intros Heq; inversion Heq; subst w'; clear Heq.
  - unfold question. destruct (pred_func proba (model (pull w)) x).
    simpl. auto.
  - rewrite Hy. simpl.
    set (wa := answer i x y y_pred (pull w)).
    destruct (diagnostics_proj o start wa) as (_ & _ & _ & -> & _).
    split; [reflexivity|].
    destruct (negb (print_every o =? 0)
              && (n_total_answers wa mod print_every o =? 0)) eqn:Hc.
    + destruct (diagnostics_prints o start wa Hc) as (line & -> & Hline).
      now exists line.
    + now rewrite (diagnostics_silent o start wa Hc).
Qed.

Lemma pvs_stdout es (m : M) (t : T) o w :
  progressive_val_score es m t o = (Returned, w) ->
  n_total_answers w = Z.of_nat (length (answered es)) /\
  Forall2 line_of_count
          (print_counts (print_every o) (length (answered es))) (stdout w).
Proof.
  revert w. induction es as [|[[i x] y] es IH] using rev_ind; intros w Hrun.
  - destruct (pvs_nil m t o (pvs_returned _ _ _ _ _ Hrun)) as [k Hnil].
    rewrite Hnil in Hrun. injection Hrun as <-. simpl. split; [reflexivity|].
    constructor.
  - destruct (pvs_prefix _ _ _ _ _ _ Hrun) as [w1 Hw1].
    destruct (IH w1 Hw1) as [Hn Hlines].
    destruct (pvs_snoc es (i, x, y) m t o w1 Hw1) as [start Hstep].
    rewrite Hrun in Hstep. symmetry in Hstep.
    apply step_stdout in Hstep as [Hn' Hout].
    rewrite answered_app, length_app. simpl.
    destruct (is_none y); simpl in *.
    + rewrite Nat.add_0_r, Hout, Hn'. auto.
    + rewrite Nat.add_1_r, print_counts_snoc.
      assert (Hcount : n_total_answers w = Z.of_nat (S (length (answered es))))
        by lia.
      rewrite <- Hcount. split; [reflexivity|].
      destruct (negb (print_every o =? 0)
                && (n_total_answers w mod print_every o =? 0)).
      * destruct Hout as (line & -> & Hline).
        apply Forall2_app; [assumption|]. now constructor.
      * rewrite Hout, app_nil_r. assumption.
Qed.

(** C5 (amended): a line is printed at an answer exactly when
    [print_every] is not zero and the counter of answered observations,
    just incremented, is a multiple of it, and at no other event; each
    line starts with that counter. So the lines of a run that returns
    match, in order, the multiples of [print_every] among [1..n], [n] the
    number of answers; with [print_every = 0] nothing is printed, and with
    [print_every = 5] and ten answers there are two lines, for the counts
    5 and 10. *)
Theorem diagnostics_at_multiples es (m : M) (t : T) o w :
  progressive_val_score es m t o = (Returned, w) ->
  Forall2 line_of_count
          (print_counts (print_every o) (length (answered es))) (stdout w) /\
  (forall k, k ∈ print_counts (print_every o) (length (answered es)) <->
     1 <= k <= Z.of_nat (length (answered es)) /\
     print_every o <> 0 /\ k mod print_every o = 0) /\
  (print_every o = 0 -> stdout w = []) /\
  (print_every o = 5 -> length (answered es) = 10%nat ->
     exists l5 l10, stdout w = [l5; l10] /\
                    line_of_count 5 l5 /\ line_of_count 10 l10) /\
  (forall es1 i x y es2, es = es1 ++ (i, x, y) :: es2 ->
     exists w1 w2,
       progressive_val_score es1 m t o = (Returned, w1) /\
       progressive_val_score (es1 ++ [(i, x, y)]) m t o = (Returned, w2) /\
       n_total_answers w2 = Z.of_nat (length (answered (es1 ++ [(i, x, y)]))) /\
       if negb (is_none y) && negb (print_every o =? 0)
          && (n_total_answers w2 mod print_every o =? 0)
       then exists line, stdout w2 = stdout w1 ++ [line] /\
                         line_of_count (n_total_answers w2) line
       else stdout w2 = stdout w1).
Proof.
  intros Hrun. destruct (pvs_stdout es m t o w Hrun) as [Hn Hlines].
  split; [assumption|]. split; [intros k; apply elem_of_print_counts|].
  split; [|split].
  - intros Hpe. rewrite Hpe, print_counts_zero in Hlines.
    now apply Forall2_nil_inv_l in Hlines.
  - intros Hpe Hlen. rewrite Hpe, Hlen in Hlines.
    change (print_counts 5 10) with [5; 10] in Hlines.
    apply Forall2_cons_inv_l in Hlines as (l5 & rest & H5 & Hlines & ->).
    apply Forall2_cons_inv_l in Hlines as (l10 & rest' & H10 & Hlines & ->).
    apply Forall2_nil_inv_l in Hlines as ->.
    now exists l5, l10.
  - intros es1 i x y es2 ->.
    assert (Hrun2 : progressive_val_score ((es1 ++ [(i, x, y)]) ++ es2) m t o
                    = (Returned, w)) by now rewrite <- app_assoc.
    destruct (pvs_prefix _ _ _ _ _ _ Hrun2) as [w2 Hw2].
    destruct (pvs_prefix _ _ _ _ _ _ Hw2) as [w1 Hw1].
    exists w1, w2. split; [assumption|]. split; [assumption|].
    split; [apply (pvs_stdout _ _ _ _ _ Hw2)|].
    destruct (pvs_snoc es1 (i, x, y) m t o w1 Hw1) as [start Hstep].
    rewrite Hw2 in Hstep. symmetry in Hstep.
    now apply step_stdout in Hstep as [_ Hout].
Qed.

(** *** No delay *)

Lemma loop_no_delay o proba start X_y i w :
  Forall (fun xy : pyval * pyval => is_none xy.2 = false) X_y ->
  exists w',
    loop o proba start (simulate_qa_from i X_y) w = (Returned, w') /\
    (model w', metric w') = guarded_manual_loop proba X_y (model w) (metric w).
Proof.
  intros Hlabels. revert i w.
  induction Hlabels as [|[x y] rest Hy _ IH]; intros i w; simpl.
  - eexists. split; reflexivity.
  - simpl in Hy. rewrite Hy. simpl.
    unfold question. simpl.
    destruct (pred_func proba (model w) x) as [y_pred m1]. simpl.
    rewrite lookup_insert_eq.
    set (wa := answer i x y y_pred _).
    destruct (IH (i + 1) (diagnostics o start wa)) as (w' & Hrun & Hres).
    exists w'. split; [assumption|]. rewrite Hres.
    now destruct (diagnostics_proj o start wa) as (-> & -> & _).
Qed.

Lemma guarded_manual_loop_unguarded proba X_y (m : M) (t : T) :
  (forall m' x, feeds_metric (pred_func proba m' x).1 = true) ->
  guarded_manual_loop proba X_y m t = manual_loop proba X_y m t.
Proof.
  intros Hfed. revert m t. induction X_y as [|[x y] rest IH]; intros m t; simpl.
  - reflexivity.
  - specialize (Hfed m x). destruct (pred_func proba m x) as [y_pred m1].
    simpl in Hfed. rewrite Hfed. apply IH.
Qed.

(** C7 (amended): with no delay, on a raw stream whose labels are all
    present, the call returns, and the metric and the model it ends with
    are those of the hand-written loop that, for each observation in
    arrival order, predicts, updates the metric unless the prediction is
    the empty mapping or [None], and trains. For a model that never
    predicts the empty mapping or [None] this is the loop that always
    updates the metric. *)
Theorem no_delay_is_guarded_manual_loop X_y (m : M) (t : T) o :
  works_with t m = true ->
  Forall (fun xy : pyval * pyval => is_none xy.2 = false) X_y ->
  exists w,
    progressive_val_score (simulate_qa_no_delay X_y) m t o = (Returned, w) /\
    (model w, metric w) = guarded_manual_loop (choose_proba m t) X_y m t /\
    ((forall m' x, feeds_metric (pred_func (choose_proba m t) m' x).1 = true) ->
     (model w, metric w) = manual_loop (choose_proba m t) X_y m t).
Proof.
  intros Hok Hlabels.
  destruct (pvs_compatible [] m t o Hok) as (start & k & Hloop).
  destruct (loop_no_delay o (choose_proba m t) start X_y 0 (init m t k) Hlabels)
    as (w & Hrun & Hres).
  exists w. rewrite Hloop. split; [exact Hrun|]. split; [exact Hres|].
  intros Hfed. rewrite Hres. now apply guarded_manual_loop_unguarded.
Qed.

(** *** Two questions on one index *)

Lemma step_preds_other o proba start e w w' i :
  e.1.1 <> i ->
  step o proba start e w = (Returned, w') ->
  preds w' !! i = preds w !! i.
Proof.
  destruct e as [[j x] y]. intros Hne. simpl in Hne.
  destruct (step_cases o proba start j x y w)
    as [[-> ->] | [(Hy & Hp & ->) | (y_pred & Hy & Hp & ->)]];
    intros Heq; inversion Heq; subst w'; clear Heq.
  - unfold question. destruct (pred_func proba (model (pull w)) x).
    simpl. now apply lookup_insert_ne.
  - destruct (diagnostics_proj o start (answer j x y y_pred (pull w)))
      as (_ & _ & -> & _).
    simpl. now apply lookup_delete_ne.
Qed.

Lemma loop_preds_other o proba start es w w' i :
  Forall (fun e : event => e.1.1 <> i) es ->
  loop o proba start es w = (Returned, w') ->
  preds w' !! i = preds w !! i.
Proof.
  intros Hall. revert w. induction Hall as [|e es He _ IH]; intros w; simpl.
  - intros Heq. now inversion Heq.
  - destruct (step o proba start e w) as [[|err] w1] eqn:Hstep; [|discriminate].
    intros Hrun. rewrite (IH _ Hrun).
    now apply (step_preds_other o proba start e w w1 i).
Qed.

Lemma step_pending_kept o proba start e w w' i :
  (e.1.1 = i -> is_none e.2 = true) ->
  step o proba start e w = (Returned, w') ->
  is_Some (preds w !! i) -> is_Some (preds w' !! i).
Proof.
  destruct e as [[j x] y]. intros Hnot. simpl in Hnot.
  destruct (step_cases o proba start j x y w)
    as [[-> ->] | [(Hy & Hp & ->) | (y_pred & Hy & Hp & ->)]];
    intros Heq; inversion Heq; subst w'; clear Heq; intros Hsome.
  - unfold question. destruct (pred_func proba (model (pull w)) x).
    simpl. destruct (decide (j = i)) as [-> | Hne].
    + rewrite lookup_insert_eq. eauto.
    + now rewrite lookup_insert_ne.
  - destruct (diagnostics_proj o start (answer j x y y_pred (pull w)))
      as (_ & _ & -> & _).
    simpl. destruct (decide (j = i)) as [Heq | Hne].
    + rewrite (Hnot Heq) in Hy. discriminate.
    + now rewrite lookup_delete_ne.
Qed.

Lemma loop_pending_kept o proba start es w w' i :
  Forall (fun e : event => e.1.1 = i -> is_none e.2 = true) es ->
  loop o proba start es w = (Returned, w') ->
  is_Some (preds w !! i) -> is_Some (preds w' !! i).
Proof.
  intros Hall. revert w. induction Hall as [|e es He _ IH]; intros w; simpl.
  - intros Heq. now inversion Heq.
  - destruct (step o proba start e w) as [[|err] w1] eqn:Hstep; [|discriminate].
    intros Hrun Hsome. apply (IH _ Hrun).
    now apply (step_pending_kept o proba start e w w1 i).
Qed.

(** C9: a question on an index asked before and not answered since,
    whatever was processed in between (events on other indices with their
    training calls, further questions on the index), raises nothing. The
    index is still pending when it comes, with the first question's
    prediction if nothing in between was on that index; the new prediction
    replaces what is stored, stays there while events on other indices are
    processed, and is the one that the answer on that index takes out and
    passes to the metric. *)
Theorem later_question_overwrites
    es1 mid1 mid2 i x1 x2 x3 y (m : M) (t : T) o w1 w3 :
  progressive_val_score (es1 ++ (i, x1, PyNone) :: mid1) m t o
    = (Returned, w1) ->
  Forall (fun e : event => e.1.1 = i -> is_none e.2 = true) mid1 ->
  Forall (fun e : event => e.1.1 <> i) mid2 ->
  progressive_val_score
    (es1 ++ (i, x1, PyNone) :: mid1 ++ (i, x2, PyNone) :: mid2) m t o
    = (Returned, w3) ->
  is_none y = false ->
  exists w0 y_pred1 w2 w4,
    progressive_val_score es1 m t o = (Returned, w0) /\
    preds w1 !! i = Some y_pred1 /\
    (Forall (fun e : event => e.1.1 <> i) mid1 ->
     y_pred1 = (pred_func (choose_proba m t) (model w0) x1).1) /\
    progressive_val_score
      (es1 ++ (i, x1, PyNone) :: mid1 ++ [(i, x2, PyNone)]) m t o
      = (Returned, w2) /\
    let y_pred2 := (pred_func (choose_proba m t) (model w1) x2).1 in
    preds w2 = <[i := y_pred2]> (preds w1) /\
    preds w3 !! i = Some y_pred2 /\
    progressive_val_score
      (es1 ++ (i, x1, PyNone) :: mid1 ++ (i, x2, PyNone) :: mid2
           ++ [(i, x3, y)]) m t o
      = (Returned, w4) /\
    metric w4 = (if feeds_metric y_pred2 then update (metric w3) y y_pred2
                 else metric w3) /\
    calls w4 = calls w3 ++ (if feeds_metric y_pred2 then [CUpdate i y y_pred2]
                            else []) ++ [CFit i x3 y].
Proof.
  intros Hw1 Hmid1 Hmid2 Hw3 Hy.
  pose proof (pvs_returned _ _ _ _ _ Hw1) as Hok.
  set (proba := choose_proba m t).
  set (start := if show_time o then Some (perf_counter 0) else None).
  set (w00 := init m t (if show_time o then 1%nat else 0%nat)).
  assert (Hpvs : forall es, progressive_val_score es m t o
                            = loop o proba start es w00)
    by (intros es; unfold progressive_val_score, proba, start, w00;
        rewrite Hok; simpl; destruct (show_time o); reflexivity).
  rewrite Hpvs in Hw1, Hw3.
  (* the run up to the first question *)
  destruct (loop_prefix _ _ _ _ _ _ _ Hw1) as (w0 & Hw0 & Hrest1).
  rewrite loop_cons, step_question in Hrest1.
  set (wq := question proba i x1 (pull w0)) in Hrest1.
  assert (Hq : preds wq !! i = Some (pred_func proba (model w0) x1).1).
  { unfold wq, question. simpl.
    destruct (pred_func proba (model w0) x1) as [p m']. simpl.
    apply lookup_insert_eq. }
  assert (Hsome : is_Some (preds w1 !! i))
    by (apply (loop_pending_kept _ _ _ _ _ _ _ Hmid1 Hrest1); eauto).
  destruct Hsome as [y_pred1 Hp1].
  (* the second question *)
  set (w2 := question proba i x2 (pull w1)).
  assert (Hw2 : loop o proba start
                  (es1 ++ (i, x1, PyNone) :: mid1 ++ [(i, x2, PyNone)]) w00
                = (Returned, w2)).
  { change (es1 ++ (i, x1, PyNone) :: mid1 ++ [(i, x2, PyNone)])
      with (es1 ++ ((i, x1, PyNone) :: mid1) ++ [(i, x2, PyNone)]).
    rewrite app_assoc. now rewrite (loop_snoc _ _ _ _ _ _ _ Hw1). }
  assert (Hp2 : preds w2 = <[i := (pred_func proba (model w1) x2).1]> (preds w1)).
  { unfold w2, question. simpl.
    now destruct (pred_func proba (model w1) x2). }
  (* the events on other indices *)
  assert (Hw3' : loop o proba start mid2 w2 = (Returned, w3)).
  { assert (Hl : es1 ++ (i, x1, PyNone) :: mid1 ++ (i, x2, PyNone) :: mid2
                 = (es1 ++ (i, x1, PyNone) :: mid1 ++ [(i, x2, PyNone)]) ++ mid2)
      by (rewrite <- app_assoc, <- app_comm_cons, <- app_assoc; reflexivity).
    rewrite Hl, loop_app, Hw2 in Hw3. exact Hw3. }
  assert (Hp3 : preds w3 !! i = Some (pred_func proba (model w1) x2).1).
  { rewrite (loop_preds_other _ _ _ _ _ _ _ Hmid2 Hw3'), Hp2.
    apply lookup_insert_eq. }
  (* the answer *)
  rewrite <- Hpvs in Hw3.
  destruct (pvs_answer _ i x3 y _ m t o w3 Hw3 Hy Hp3)
    as (w4 & Hw4 & _ & Ht & Hc & _).
  exists w0, y_pred1, w2, w4.
  split; [now rewrite Hpvs|]. split; [exact Hp1|]. split.
  { intros Hother.
    rewrite (loop_preds_other _ _ _ _ _ _ _ Hother Hrest1), Hq in Hp1.
    now injection Hp1. }
  split; [now rewrite Hpvs|]. simpl.
  split; [exact Hp2|]. split; [exact Hp3|]. split; [|split; assumption].
  rewrite <- app_assoc, <- app_comm_cons, <- app_assoc in Hw4. exact Hw4.
Qed.

(** *** The trace against the stream *)

Lemma skeleton_app cs1 cs2 : skeleton (cs1 ++ cs2) = skeleton cs1 ++ skeleton cs2.
Proof.
  induction cs1 as [|c cs1 IH]; simpl; [reflexivity|].
  destruct c; simpl; now rewrite IH.
Qed.

Lemma step_skeleton o proba start e w :
  skeleton (calls (step o proba start e w).2) =
  skeleton (calls w) ++
  match (step o proba start e w).1 with Returned => [e] | Raised _ => [] end.
Proof.
  destruct e as [[i x] y].
  destruct (step_cases o proba start i x y w)
    as [[-> ->] | [(Hy & Hp & ->) | (y_pred & Hy & Hp & ->)]]; simpl.
  - unfold question. destruct (pred_func proba (model (pull w)) x).
    simpl. now rewrite skeleton_app.
  - now rewrite app_nil_r.
  - destruct (diagnostics_proj o start (answer i x y y_pred (pull w)))
      as (_ & _ & _ & _ & -> & _).
    simpl. rewrite !skeleton_app. now destruct (feeds_metric y_pred).
Qed.

Lemma loop_skeleton o proba start es w :
  exists rest,
    skeleton (calls w) ++ es =
      skeleton (calls (loop o proba start es w).2) ++ rest /\
    ((loop o proba start es w).1 = Returned -> rest = []).
Proof.
  revert w. induction es as [|e es IH]; intros w.
  - exists []. split; reflexivity.
  - rewrite loop_cons. pose proof (step_skeleton o proba start e w) as Hstep.
    destruct (step o proba start e w) as [[|err] w1]; simpl in Hstep.
    + destruct (IH w1) as (rest & Heq & Hret). exists rest. split; [|exact Hret].
      rewrite <- Heq, Hstep, <- app_assoc. reflexivity.
    + exists (e :: es). simpl. split; [|discriminate].
      rewrite Hstep, app_nil_r. reflexivity.
Qed.

(** X1: the calls on the model follow the stream, event by event. In the
    trace of a run, with the metric updates left out, the prediction calls
    and the training calls are the events processed, in stream order: a
    prediction on [x] for each question, a training call on [(x, y)] for
    each answer. A run that returns has processed the whole stream; a run
    that raises has processed a prefix of it. *)
Theorem calls_follow_the_stream es (m : M) (t : T) o out w :
  progressive_val_score es m t o = (out, w) ->
  skeleton (calls w) `prefix_of` es /\
  (out = Returned -> skeleton (calls w) = es).
Proof.
  unfold progressive_val_score.
  destruct (works_with t m); simpl.
  - intros Hrun.
    assert (Hloop : exists start k,
               loop o (choose_proba m t) start es (init m t k) = (out, w))
      by (destruct (show_time o); eauto).
    destruct Hloop as (start & k & Hloop).
    destruct (loop_skeleton o (choose_proba m t) start es (init m t k))
      as (rest & Heq & Hret).
    rewrite Hloop in Heq, Hret. simpl in Heq, Hret. split.
    + exists rest. exact Heq.
    + intros ->. rewrite (Hret eq_refl), app_nil_r in Heq. now symmetry.
  - intros Heq. injection Heq as <- <-. simpl. split; [|discriminate].
    apply prefix_nil.
Qed.

(** *** Replaying the trace *)

Lemma replays_app proba cs1 cs2 (m m1 m2 : M) (t t1 t2 : T) :
  replays proba cs1 m t m1 t1 ->
  replays proba cs2 m1 t1 m2 t2 ->
  replays proba (cs1 ++ cs2) m t m2 t2.
Proof.
  induction 1; simpl; intros Hrest; [assumption | | |];
    constructor; auto.
Qed.

Lemma step_replays o proba start e w (m0 : M) (t0 : T) :
  replays proba (calls w) m0 t0 (model w) (metric w) ->
  replays proba (calls (step o proba start e w).2) m0 t0
          (model (step o proba start e w).2) (metric (step o proba start e w).2).
Proof.
  intros Hw. destruct e as [[i x] y].
  destruct (step_cases o proba start i x y w)
    as [[-> ->] | [(Hy & Hp & ->) | (y_pred & Hy & Hp & ->)]]; simpl.
  - unfold question. simpl.
    destruct (pred_func proba (model w) x) as [y_pred m'] eqn:Hpred. simpl.
    eapply replays_app; [exact Hw|].
    replace y_pred with (pred_func proba (model w) x).1 by now rewrite Hpred.
    replace m' with (pred_func proba (model w) x).2 by now rewrite Hpred.
    repeat constructor.
  - exact Hw.
  - destruct (diagnostics_proj o start (answer i x y y_pred (pull w)))
      as (-> & -> & _ & _ & -> & _).
    simpl. eapply replays_app; [exact Hw|].
    destruct (feeds_metric y_pred); simpl; repeat constructor.
Qed.

Lemma loop_replays o proba start es w (m0 : M) (t0 : T) :
  replays proba (calls w) m0 t0 (model w) (metric w) ->
  replays proba (calls (loop o proba start es w).2) m0 t0
          (model (loop o proba start es w).2) (metric (loop o proba start es w).2).
Proof.
  revert w. induction es as [|e es IH]; intros w Hw; [exact Hw|].
  rewrite loop_cons. pose proof (step_replays o proba start e w m0 t0 Hw) as Hs.
  destruct (step o proba start e w) as [[|err] w1]; simpl in *; auto.
Qed.

(** X2: nothing but the recorded calls touches the model and the metric,
    and the prediction call is chosen once. Making the calls of the trace
    again, in order, on the model and metric passed in, with every
    prediction made by the one call chosen before the loop
    ([predict_proba_one] for a classifier scored by a metric that does not
    require labels, [predict_one] otherwise), gives the recorded
    predictions and ends in the model and the metric of the run. *)
Theorem run_is_replay_of_its_trace es (m : M) (t : T) o :
  let w := (progressive_val_score es m t o).2 in
  replays (is_classifier m && negb (requires_labels t)) (calls w) m t
          (model w) (metric w).
Proof.
  simpl. unfold progressive_val_score.
  destruct (works_with t m); simpl; [|constructor].
  destruct (show_time o); apply loop_replays; constructor.
Qed.

(** *** Which runs fail, and how *)

Lemma last_label_snoc es j x y i :
  last_label (es ++ [(j, x, y)]) i =
  if decide (j = i) then Some y else last_label es i.
Proof.
  induction es as [|[[j' x'] y'] es IH]; simpl.
  - destruct (decide (j = i)); reflexivity.
  - rewrite IH. destruct (decide (j = i)); reflexivity.
Qed.

Lemma pvs_pending_last es (m : M) (t : T) o w i :
  progressive_val_score es m t o = (Returned, w) ->
  is_Some (preds w !! i) <-> last_label es i = Some PyNone.
Proof.
  revert w. induction es as [|[[j x] y] es IH] using rev_ind; intros w Hrun.
  - destruct (pvs_nil m t o (pvs_returned _ _ _ _ _ Hrun)) as [k Hnil].
    rewrite Hnil in Hrun. injection Hrun as <-. simpl.
    rewrite lookup_empty. split; [intros [p Hp]|]; discriminate.
  - destruct (pvs_prefix _ _ _ _ _ _ Hrun) as [w1 Hw1].
    specialize (IH w1 Hw1).
    destruct (pvs_snoc es (j, x, y) m t o w1 Hw1) as [start Hstep].
    rewrite Hrun in Hstep. rewrite last_label_snoc.
    destruct (step_cases o (choose_proba m t) start j x y w1)
      as [[-> Heq] | [(Hy & Hp & Heq) | (y_pred & Hy & Hp & Heq)]];
      rewrite Heq in Hstep; [|discriminate|]; injection Hstep as ->.
    + unfold question.
      destruct (pred_func (choose_proba m t) (model (pull w1)) x)
        as [y_pred m'].
      simpl. destruct (decide (j = i)) as [-> | Hne].
      * rewrite lookup_insert_eq. split; [reflexivity | eauto].
      * rewrite lookup_insert_ne by assumption. exact IH.
    + destruct (diagnostics_proj o start (answer j x y y_pred (pull w1)))
        as (_ & _ & -> & _).
      simpl. destruct (decide (j = i)) as [-> | Hne].
      * rewrite lookup_delete_eq. split; [intros [p Hnone]; discriminate|].
        intros Hlast. injection Hlast as ->. discriminate.
      * rewrite lookup_delete_ne by assumption. exact IH.
Qed.

Lemma loop_raised o proba start es w0 err w :
  loop o proba start es w0 = (Raised err, w) ->
  exists es1 i x y es2 w1,
    es = es1 ++ (i, x, y) :: es2 /\ err = KeyError i /\
    is_none y = false /\
    loop o proba start es1 w0 = (Returned, w1) /\
    preds w1 !! i = None /\ w = pull w1.
Proof.
  revert w0. induction es as [|[[j x] y] es IH]; intros w0; [discriminate|].
  rewrite loop_cons.
  destruct (step_cases o proba start j x y w0)
    as [[-> Heq] | [(Hy & Hp & Heq) | (y_pred & Hy & Hp & Heq)]];
    rewrite Heq.
  - intros Hrest.
    destruct (IH _ Hrest) as (es1 & i & x' & y' & es2 & w1 & -> & H).
    destruct H as (Herr & Hy' & Hw1 & Hrest').
    exists ((j, x, PyNone) :: es1), i, x', y', es2, w1.
    split; [reflexivity|]. split; [exact Herr|]. split; [exact Hy'|].
    split; [|exact Hrest']. now rewrite loop_cons, Heq.
  - intros Hraise. injection Hraise as <- <-.
    exists [], j, x, y, es, w0. auto 10.
  - intros Hrest.
    destruct (IH _ Hrest) as (es1 & i & x' & y' & es2 & w1 & -> & H).
    destruct H as (Herr & Hy' & Hw1 & Hrest').
    exists ((j, x, y) :: es1), i, x', y', es2, w1.
    split; [reflexivity|]. split; [exact Herr|]. split; [exact Hy'|].
    split; [|exact Hrest']. now rewrite loop_cons, Heq.
Qed.

Lemma pvs_raised es (m : M) (t : T) o err w :
  progressive_val_score es m t o = (Raised err, w) ->
  (works_with t m = false /\ pulled w = 0%nat /\
   exists msg, err = ValueError msg) \/
  (works_with t m = true /\
   exists es1 i x y es2 w1,
     es = es1 ++ (i, x, y) :: es2 /\ err = KeyError i /\
     is_none y = false /\
     progressive_val_score es1 m t o = (Returned, w1) /\
     preds w1 !! i = None /\ w = pull w1).
Proof.
  destruct (works_with t m) eqn:Hok.
  - destruct (pvs_compatible es m t o Hok) as (start & k & Hloop).
    rewrite Hloop. intros Hraise. right. split; [reflexivity|].
    destruct (loop_raised _ _ _ _ _ _ _ Hraise)
      as (es1 & i & x & y & es2 & w1 & Hes & Herr & Hy & Hw1 & Hp & Hw).
    exists es1, i, x, y, es2, w1. rewrite Hloop. auto 10.
  - unfold progressive_val_score. rewrite Hok. simpl.
    intros Hraise. injection Hraise as <- <-. left. eauto.
Qed.

(** X3: the call fails in two ways only. A run that raises either found
    the metric incompatible with the model, and raised [ValueError] with
    nothing pulled from the stream, or met an answer event whose index had
    no pending prediction (the last event on that index, if any, was not a
    question) and raised [KeyError] on that index, in the state the events
    before it had led to. *)
Theorem the_only_failures es (m : M) (t : T) o err w :
  progressive_val_score es m t o = (Raised err, w) ->
  (works_with t m = false /\ pulled w = 0%nat /\
   exists msg, err = ValueError msg) \/
  (works_with t m = true /\
   exists es1 i x y es2 w1,
     es = es1 ++ (i, x, y) :: es2 /\ err = KeyError i /\
     is_none y = false /\
     last_label es1 i <> Some PyNone /\
     progressive_val_score es1 m t o = (Returned, w1) /\
     model w = model w1 /\ metric w = metric w1 /\ calls w = calls w1 /\
     preds w = preds w1 /\ stdout w = stdout w1).
Proof.
  intros Hraise.
  destruct (pvs_raised es m t o err w Hraise)
    as [Hbad | (Hok & es1 & i & x & y & es2 & w1 & Hes & Herr & Hy & Hw1 & Hp & ->)];
    [left; exact Hbad | right].
  split; [exact Hok|]. exists es1, i, x, y, es2, w1.
  split; [exact Hes|]. split; [exact Herr|]. split; [exact Hy|].
  split; [|simpl; auto 10].
  intros Hlast. apply (pvs_pending_last es1 m t o w1 i Hw1) in Hlast.
  destruct Hlast as [p Hsome]. congruence.
Qed.

(** X4: which streams the call gets through. With a compatible metric the
    call returns exactly when every answer event comes while its index is
    pending, that is, when the last event before it on the same index is a
    question. *)
Theorem returns_iff_answers_are_pending es (m : M) (t : T) o :
  works_with t m = true ->
  (exists w, progressive_val_score es m t o = (Returned, w)) <->
  (forall es1 i x y es2, es = es1 ++ (i, x, y) :: es2 ->
     is_none y = false -> last_label es1 i = Some PyNone).
Proof.
  intros Hok. split.
  - intros [w Hrun] es1 i x y es2 -> Hy.
    assert (Hrun2 : progressive_val_score ((es1 ++ [(i, x, y)]) ++ es2) m t o
                    = (Returned, w)) by now rewrite <- app_assoc.
    destruct (pvs_prefix _ _ _ _ _ _ Hrun2) as [w2 Hw2].
    destruct (pvs_prefix _ _ _ _ _ _ Hw2) as [w1 Hw1].
    apply (pvs_pending_last es1 m t o w1 i Hw1).
    destruct (pvs_snoc es1 (i, x, y) m t o w1 Hw1) as [start Hstep].
    rewrite Hw2 in Hstep.
    destruct (preds w1 !! i) as [p|] eqn:Hp; [eauto|].
    rewrite (step_missing o _ start i x y w1 Hy Hp) in Hstep. discriminate.
  - intros Hall.
    destruct (progressive_val_score es m t o) as [[|err] w] eqn:Hrun; [eauto|].
    exfalso.
    destruct (pvs_raised es m t o err w Hrun)
      as [(Hbad & _) | (_ & es1 & i & x & y & es2 & w1 & Hes & _ & Hy & Hw1 & Hp & _)];
      [congruence|].
    specialize (Hall es1 i x y es2 Hes Hy).
    apply (pvs_pending_last es1 m t o w1 i Hw1) in Hall as [p Hsome].
    congruence.
Qed.

(** X5: what is pending when the call returns, on any stream. An index has
    a pending prediction exactly when the last event on it was a question;
    in particular nothing is pending once every index was last answered. *)
Theorem pending_iff_last_event_is_question es (m : M) (t : T) o w :
  progressive_val_score es m t o = (Returned, w) ->
  (forall i, is_Some (preds w !! i) <-> last_label es i = Some PyNone) /\
  ((forall i, last_label es i <> Some PyNone) -> preds w = ∅).
Proof.
  intros Hrun. split; [intros i; now apply (pvs_pending_last es m t o)|].
  intros Hnone. apply map_empty. intros i.
  destruct (preds w !! i) as [p|] eqn:Hp; [|reflexivity].
  exfalso. apply (Hnone i). apply (pvs_pending_last es m t o w i Hrun). eauto.
Qed.

(** *** Clock readings and the number of lines *)

Lemma pvs_loop es (m : M) (t : T) o :
  works_with t m = true ->
  progressive_val_score es m t o =
  loop o (choose_proba m t)
       (if show_time o then Some (perf_counter 0) else None) es
       (init m t (if show_time o then 1%nat else 0%nat)).
Proof.
  intros Hok. unfold progressive_val_score. rewrite Hok. simpl.
  destruct (show_time o); reflexivity.
Qed.

Lemma diagnostics_ticks o start w :
  ticks (diagnostics o start w) =
  if show_time o && bool_decide (is_Some start)
  then (ticks w + (length (stdout (diagnostics o start w)) - length (stdout w)))%nat
  else ticks w.
Proof.
  unfold diagnostics.
  destruct (negb _ && _).
  - destruct (show_time o), start as [s|]; simpl;
      rewrite ?length_app; simpl; lia.
  - destruct (show_time o && _); lia.
Qed.

Lemma diagnostics_stdout_grows o start w :
  (length (stdout w) <= length (stdout (diagnostics o start w)))%nat.
Proof.
  unfold diagnostics. destruct (negb _ && _); [|lia].
  destruct (show_time o), start as [s|]; simpl; rewrite length_app; lia.
Qed.

Lemma step_ticks o proba start e w :
  let w' := (step o proba start e w).2 in
  (length (stdout w) <= length (stdout w'))%nat /\
  ticks w' =
  if show_time o && bool_decide (is_Some start)
  then (ticks w + (length (stdout w') - length (stdout w)))%nat
  else ticks w.
Proof.
  destruct e as [[i x] y].
  destruct (step_cases o proba start i x y w)
    as [[-> ->] | [(Hy & Hp & ->) | (y_pred & Hy & Hp & ->)]]; simpl.
  - unfold question. destruct (pred_func proba (model (pull w)) x).
    simpl. split; [lia|]. destruct (show_time o && _); lia.
  - split; [lia|]. destruct (show_time o && _); lia.
  - split.
    + apply (diagnostics_stdout_grows o start (answer i x y y_pred (pull w))).
    + apply (diagnostics_ticks o start (answer i x y y_pred (pull w))).
Qed.

Lemma loop_ticks o proba start es w :
  let w' := (loop o proba start es w).2 in
  (length (stdout w) <= length (stdout w'))%nat /\
  ticks w' =
  if show_time o && bool_decide (is_Some start)
  then (ticks w + (length (stdout w') - length (stdout w)))%nat
  else ticks w.
Proof.
  revert w. induction es as [|e es IH]; intros w; simpl.
  - split; [lia|]. destruct (show_time o && _); lia.
  - pose proof (step_ticks o proba start e w) as [Hle Hstep].
    destruct (step o proba start e w) as [[|err] w1]; simpl in *.
    + destruct (IH w1) as [Hle' Hrest]. split; [lia|].
      rewrite Hrest, Hstep. destruct (show_time o && _); lia.
    + auto.
Qed.

Lemma pvs_ticks es (m : M) (t : T) o :
  works_with t m = true ->
  ticks (progressive_val_score es m t o).2 =
  if show_time o
  then S (length (stdout (progressive_val_score es m t o).2))
  else 0%nat.
Proof.
  intros Hok. rewrite (pvs_loop es m t o Hok).
  destruct (loop_ticks o (choose_proba m t)
              (if show_time o then Some (perf_counter 0) else None) es
              (init m t (if show_time o then 1%nat else 0%nat)))
    as [_ Hticks].
  rewrite Hticks. destruct (show_time o); simpl; [|reflexivity].
  rewrite ?bool_decide_eq_true_2 by eauto. lia.
Qed.

(** X6: the clock is read only when [show_time] is set, and then once
    before the loop and once for each line printed; without [show_time] it
    is never read. *)
Theorem clock_read_once_per_line es (m : M) (t : T) o :
  works_with t m = true ->
  ticks (progressive_val_score es m t o).2 =
  if show_time o
  then S (length (stdout (progressive_val_score es m t o).2))
  else 0%nat.
Proof. apply pvs_ticks. Qed.

Lemma next_quotient n d :
  0 <= n -> 0 < d ->
  (n + 1) / d = n / d + (if (n + 1) mod d =? 0 then 1 else 0).
Proof.
  intros Hn Hd.
  pose proof (Z.div_mod n d) as Hn1. pose proof (Z.mod_pos_bound n d Hd).
  pose proof (Z.div_mod (n + 1) d) as Hn2.
  pose proof (Z.mod_pos_bound (n + 1) d Hd).
  destruct (Z.eqb_spec ((n + 1) mod d) 0); nia.
Qed.

Lemma multiple_abs k pe : (k mod pe =? 0) = (k mod Z.abs pe =? 0).
Proof.
  destruct (Z.eqb_spec pe 0) as [-> | Hpe]; [reflexivity|].
  apply eq_iff_eq_true. rewrite !Z.eqb_eq.
  rewrite !Z.mod_divide by lia. symmetry. apply Z.divide_abs_l.
Qed.

Lemma length_print_counts pe n :
  pe <> 0 ->
  Z.of_nat (length (print_counts pe n)) = Z.of_nat n / Z.abs pe.
Proof.
  intros Hpe. induction n as [|n IH].
  - reflexivity.
  - rewrite print_counts_snoc, length_app, Nat2Z.inj_add, IH.
    replace (Z.of_nat (S n)) with (Z.of_nat n + 1) by lia.
    rewrite (next_quotient (Z.of_nat n) (Z.abs pe)) by lia.
    rewrite (multiple_abs (Z.of_nat n + 1) pe).
    destruct (Z.eqb_spec pe 0) as [|_]; [contradiction|]. simpl.
    destruct (_ =? 0); reflexivity.
Qed.

(** X7: how many lines a run prints. A run that returns after [n] answers
    has printed [n / |print_every|] lines, the quotient rounded down, and
    none when [print_every] is zero. *)
Theorem number_of_lines es (m : M) (t : T) o w :
  progressive_val_score es m t o = (Returned, w) ->
  Z.of_nat (length (stdout w)) =
  if print_every o =? 0 then 0
  else Z.of_nat (length (answered es)) / Z.abs (print_every o).
Proof.
  intros Hrun. destruct (pvs_stdout es m t o w Hrun) as [_ Hlines].
  apply Forall2_length in Hlines. rewrite <- Hlines.
  destruct (Z.eqb_spec (print_every o) 0) as [Hz | Hnz].
  - now rewrite Hz, print_counts_zero.
  - now apply length_print_counts.
Qed.

(** *** The sign of [print_every] *)

Lemma diagnostics_opp pe st sm start w :
  diagnostics (Options (- pe) st sm) start w =
  diagnostics (Options pe st sm) start w.
Proof.
  unfold diagnostics. simpl.
  replace (- pe =? 0) with (pe =? 0)
    by (destruct (Z.eqb_spec pe 0), (Z.eqb_spec (- pe) 0); lia || reflexivity).
  rewrite (multiple_abs _ (- pe)), (multiple_abs _ pe), Z.abs_opp.
  reflexivity.
Qed.

Lemma loop_opp pe st sm proba start es w :
  loop (Options (- pe) st sm) proba start es w =
  loop (Options pe st sm) proba start es w.
Proof.
  revert w. induction es as [|[[i x] y] es IH]; intros w; [reflexivity|].
  rewrite !loop_cons.
  assert (Hstep : step (Options (- pe) st sm) proba start (i, x, y) w
                  = step (Options pe st sm) proba start (i, x, y) w).
  { unfold step. destruct (is_none y); [reflexivity|].
    destruct (preds (pull w) !! i); [|reflexivity].
    now rewrite diagnostics_opp. }
  rewrite Hstep.
  destruct (step (Options pe st sm) proba start (i, x, y) w) as [[|err] w1];
    [apply IH | reflexivity].
Qed.

(** X8: only the size of [print_every] matters. A run with [print_every]
    set to [-n] is, in every respect, the run with [print_every] set to
    [n]: same outcome, same metric and model, same lines printed. *)
Theorem print_every_sign_is_ignored es (m : M) (t : T) pe st sm :
  progressive_val_score es m t (Options (- pe) st sm) =
  progressive_val_score es m t (Options pe st sm).
Proof.
  unfold progressive_val_score. destruct (works_with t m); simpl; [|reflexivity].
  destruct st; apply loop_opp.
Qed.

(** *** What a line shows *)

Lemma append_nil_r (s : string) : s +:+ "" = s.
Proof.
  induction s as [|ch s IH]; [reflexivity|].
  change (String ch (s +:+ "") = String ch s). now rewrite IH.
Qed.

Lemma append_nil_l (s : string) : "" +:+ s = s.
Proof. reflexivity. Qed.

(** X9: what a printed line shows. The line printed at an answer holds, in
    this order, the counter including this answer, the metric as this
    answer's update left it, the time elapsed between the reading taken
    before the loop and a reading taken now (with [show_time]), and the
    memory of the model as trained on this answer (with [show_memory]). *)
Theorem line_shows_state_after_answer es1 i x y (m : M) (t : T) o w1 w2 :
  progressive_val_score es1 m t o = (Returned, w1) ->
  progressive_val_score (es1 ++ [(i, x, y)]) m t o = (Returned, w2) ->
  is_none y = false ->
  print_every o <> 0 ->
  n_total_answers w2 mod print_every o = 0 ->
  n_total_answers w2 = n_total_answers w1 + 1 /\
  model w2 = fit_one (model w1) x y /\
  stdout w2 =
    stdout w1 ++
    ["[" +:+ fmt_thousands (n_total_answers w2) +:+ "] "
         +:+ metric_repr (metric w2)
         +:+ (if show_time o
              then dash +:+ elapsed_repr (perf_counter 0)
                              (perf_counter (S (length (stdout w1))))
              else "")
         +:+ (if show_memory o then dash +:+ memory_usage (model w2) else "")].
Proof.
  intros Hw1 Hw2 Hy Hpe Hmod.
  pose proof (pvs_returned _ _ _ _ _ Hw1) as Hok.
  pose proof (pvs_ticks es1 m t o Hok) as Hticks.
  rewrite Hw1 in Hticks. simpl in Hticks.
  rewrite (pvs_loop es1 m t o Hok) in Hw1.
  rewrite (pvs_loop (es1 ++ [(i, x, y)]) m t o Hok) in Hw2.
  rewrite (loop_snoc _ _ _ _ _ _ _ Hw1) in Hw2.
  destruct (step_cases o (choose_proba m t)
              (if show_time o then Some (perf_counter 0) else None) i x y w1)
    as [[-> Heq] | [(_ & Hp & Heq) | (y_pred & _ & Hp & Heq)]];
    rewrite Heq in Hw2; [discriminate Hy | discriminate Hw2 |].
  injection Hw2 as <-.
  set (wa := answer i x y y_pred (pull w1)) in *.
  destruct (diagnostics_proj o (if show_time o then Some (perf_counter 0)
                                else None) wa) as (Hm & Ht & _ & Hn & _).
  rewrite Hn in Hmod. rewrite Hn, Hm, Ht.
  split; [reflexivity|]. split; [reflexivity|].
  unfold diagnostics.
  replace (negb (print_every o =? 0)
           && (n_total_answers wa mod print_every o =? 0)) with true
    by (symmetry; apply andb_true_iff; split;
        [apply negb_true_iff, Z.eqb_neq, Hpe | apply Z.eqb_eq, Hmod]).
  destruct (show_time o), (show_memory o); simpl; rewrite ?Hticks;
    do 2 f_equal; rewrite ?append_assoc, ?append_nil_r; reflexivity.
Qed.

(** *** Streams without answers *)

Lemma loop_questions_only o proba start es w :
  answered es = [] ->
  (loop o proba start es w).1 = Returned /\
  metric (loop o proba start es w).2 = metric w.
Proof.
  revert w. induction es as [|[[i x] y] es IH]; intros w; simpl answered.
  - intros _. split; reflexivity.
  - destruct (is_none y) eqn:Hy; [|discriminate].
    intros Hrest. apply is_none_true in Hy. subst y.
    rewrite loop_cons, step_question.
    destruct (IH (question proba i x (pull w)) Hrest) as [Hout Hmetric].
    split; [exact Hout|]. rewrite Hmetric. unfold question.
    now destruct (pred_func proba (model (pull w)) x).
Qed.

(** X10: a stream without answers changes nothing that is scored. On a
    stream that holds questions only, the empty stream among them, the
    call returns the metric as it was passed in, makes no training call
    and prints nothing, whatever [print_every] is. *)
Theorem questions_only_leave_metric_alone es (m : M) (t : T) o :
  works_with t m = true ->
  answered es = [] ->
  exists w,
    progressive_val_score es m t o = (Returned, w) /\
    metric w = t /\ fits (calls w) = [] /\ stdout w = [] /\
    n_total_answers w = 0.
Proof.
  intros Hok Hnone.
  pose proof (pvs_loop es m t o Hok) as Hloop.
  destruct (loop_questions_only o (choose_proba m t)
              (if show_time o then Some (perf_counter 0) else None) es
              (init m t (if show_time o then 1%nat else 0%nat)) Hnone)
    as [Hout Hmetric].
  rewrite <- Hloop in Hout, Hmetric.
  destruct (progressive_val_score es m t o) as [out w] eqn:Hrun.
  simpl in Hout, Hmetric. subst out. exists w.
  split; [reflexivity|]. split; [exact Hmetric|].
  split; [now rewrite (pvs_fits _ _ _ _ _ Hrun)|].
  destruct (pvs_stdout es m t o w Hrun) as [Hn Hlines].
  rewrite Hnone in Hn, Hlines. simpl in Hn, Hlines.
  split; [|exact Hn].
  change (print_counts (print_every o) 0) with (@nil Z) in Hlines.
  now apply Forall2_nil_inv_l in Hlines.
Qed.

(** *** The counter in a line *)

Lemma rev_is_reverse {A} (l : list A) : rev l = reverse l.
Proof. unfold reverse. apply rev_alt. Qed.

Lemma group3_short l : (length l <= 3)%nat -> group3 l = l.
Proof.
  destruct l as [|a [|b [|c [|d l]]]]; simpl; intros; try reflexivity; lia.
Qed.

Lemma group3_cases (P : list ascii -> Prop) :
  (forall l, (length l <= 3)%nat -> P l) ->
  (forall a b c d rest, P (d :: rest) -> P (a :: b :: c :: d :: rest)) ->
  forall l, P l.
Proof.
  intros Hshort Hlong l.
  assert (Hall : forall n l, (length l <= n)%nat -> P l).
  { induction n as [|n IH]; intros l' Hlen.
    - apply Hshort. lia.
    - destruct l' as [|a [|b [|c [|d rest]]]];
        try (apply Hshort; simpl; lia).
      apply Hlong, IH. simpl in Hlen. simpl. lia. }
  apply (Hall (length l)). lia.
Qed.

Lemma filter_keeps_all (l : list ascii) :
  Forall no_comma l -> filter no_comma l = l.
Proof.
  induction 1 as [|c l Hc _ IH]; [reflexivity|].
  now rewrite filter_cons_True, IH.
Qed.

Lemma group3_strip l :
  Forall no_comma l -> filter no_comma (group3 l) = l.
Proof.
  induction l as [l Hlen | a b c d rest IH] using group3_cases; intros Hl.
  - rewrite group3_short by assumption. now apply filter_keeps_all.
  - change (group3 (a :: b :: c :: d :: rest))
      with (a :: b :: c :: ","%char :: group3 (d :: rest)).
    apply Forall_cons in Hl as [Ha Hl]. apply Forall_cons in Hl as [Hb Hl].
    apply Forall_cons in Hl as [Hc Hl].
    rewrite !filter_cons_True by assumption.
    rewrite filter_cons_False by (intros Hno; now apply Hno).
    now rewrite IH.
Qed.

Lemma group3_commas l k ch :
  Forall no_comma l ->
  group3 l !! k = Some ch ->
  ch = ","%char <-> (k mod 4 = 3)%nat.
Proof.
  revert k. induction l as [l Hlen | a b c d rest IH] using group3_cases;
    intros k Hl Hk.
  - rewrite group3_short in Hk by assumption.
    assert (Hlt : (k < 3)%nat) by (apply lookup_lt_Some in Hk; lia).
    assert (Hch : no_comma ch)
      by (eapply Forall_lookup_1; eassumption).
    split; [intros ->; now destruct Hch|].
    intros Hmod. rewrite Nat.mod_small in Hmod by lia. lia.
  - change (group3 (a :: b :: c :: d :: rest))
      with (a :: b :: c :: ","%char :: group3 (d :: rest)) in Hk.
    apply Forall_cons in Hl as [Ha Hl]. apply Forall_cons in Hl as [Hb Hl].
    apply Forall_cons in Hl as [Hc Hl].
    destruct k as [|[|[|[|k]]]]; simpl in Hk.
    + injection Hk as <-. split; [intros ->; now destruct Ha | discriminate].
    + injection Hk as <-. split; [intros ->; now destruct Hb | discriminate].
    + injection Hk as <-. split; [intros ->; now destruct Hc | discriminate].
    + injection Hk as <-. split; reflexivity.
    + rewrite (IH k Hl Hk).
      replace (S (S (S (S k)))) with (k + 1 * 4)%nat by lia.
      now rewrite Nat.Div0.mod_add.
Qed.

Lemma group3_last l : last (group3 l) = last l.
Proof.
  induction l as [l Hlen | a b c d rest IH] using group3_cases.
  - now rewrite group3_short.
  - change (group3 (a :: b :: c :: d :: rest))
      with (a :: b :: c :: ","%char :: group3 (d :: rest)).
    assert (Hne : group3 (d :: rest) <> []).
    { destruct rest as [|? [|? [|? ?]]]; discriminate. }
    destruct (group3 (d :: rest)) as [|g gs] eqn:Hg; [contradiction|].
    change (last (a :: b :: c :: ","%char :: g :: gs)) with (last (g :: gs)).
    rewrite IH. reflexivity.
Qed.

Lemma pretty_N_char_no_comma x : no_comma (pretty_N_char x).
Proof. unfold no_comma, pretty_N_char. repeat case_match; discriminate. Qed.

Lemma pretty_N_go_no_comma x s :
  Forall no_comma (list_ascii_of_string s) ->
  Forall no_comma (list_ascii_of_string (pretty_N_go x s)).
Proof.
  revert s. induction (N.lt_wf_0 x) as [x _ IH]; intros s Hs.
  destruct (decide (x = 0)%N) as [-> | Hx].
  - now rewrite pretty_N_go_0.
  - rewrite pretty_N_go_step by lia. apply IH.
    + apply N.div_lt; lia.
    + simpl. constructor; [apply pretty_N_char_no_comma | assumption].
Qed.

Lemma pretty_Z_no_comma n :
  0 <= n -> Forall no_comma (list_ascii_of_string (pretty n)).
Proof.
  intros Hn. destruct n as [|p|p]; [| |lia].
  - repeat constructor. discriminate.
  - unfold pretty, pretty_Z, pretty, pretty_positive, pretty, pretty_N.
    destruct (decide (N.pos p = 0)%N); [discriminate|].
    apply pretty_N_go_no_comma. constructor.
Qed.

(** X11: how the counter is written. For a counter that is not negative,
    [{n:,d}] gives the decimal numeral with separators added: taking the
    commas out gives the plain numeral back; counting characters from the
    right, the commas sit exactly at every fourth place; and the text
    never starts with a comma. *)
Theorem thousands_grouping n :
  0 <= n ->
  let out := list_ascii_of_string (fmt_thousands n) in
  filter no_comma out = list_ascii_of_string (pretty n) /\
  (forall k ch, rev out !! k = Some ch ->
     ch = ","%char <-> (k mod 4 = 3)%nat) /\
  head out <> Some ","%char.
Proof.
  intros Hn out.
  pose proof (pretty_Z_no_comma n Hn) as Hdigits.
  assert (Hout : out = rev (group3 (rev (list_ascii_of_string (pretty n))))).
  { unfold out, fmt_thousands.
    destruct (Z.ltb_spec n 0); [lia|].
    rewrite Z.abs_eq by lia. apply list_ascii_of_string_of_list_ascii. }
  assert (Hrev : Forall no_comma (rev (list_ascii_of_string (pretty n)))).
  { rewrite rev_is_reverse. now apply Forall_reverse. }
  rewrite Hout. split; [|split].
  - rewrite rev_is_reverse, filter_reverse, group3_strip by assumption.
    rewrite <- rev_is_reverse. apply rev_involutive.
  - intros k ch. rewrite rev_involutive. now apply group3_commas.
  - rewrite rev_is_reverse, head_reverse, group3_last.
    rewrite rev_is_reverse, last_reverse.
    destruct (list_ascii_of_string (pretty n)) as [|d ds]; [discriminate|].
    simpl. intros Heq. injection Heq as ->.
    apply Forall_cons in Hdigits as [Hd _]. now apply Hd.
Qed.

(** *** No look-ahead *)

Lemma step_extends o proba start e w :
  calls w `prefix_of` calls (step o proba start e w).2 /\
  stdout w `prefix_of` stdout (step o proba start e w).2.
Proof.
  destruct e as [[i x] y].
  destruct (step_cases o proba start i x y w)
    as [[-> ->] | [(Hy & Hp & ->) | (y_pred & Hy & Hp & ->)]]; simpl.
  - unfold question. destruct (pred_func proba (model (pull w)) x). simpl.
    split; [apply prefix_app_r|]; reflexivity.
  - split; reflexivity.
  - set (wa := answer i x y y_pred (pull w)).
    destruct (diagnostics_proj o start wa) as (_ & _ & _ & _ & -> & _).
    split; [simpl; apply prefix_app_r; reflexivity|].
    destruct (negb (print_every o =? 0)
              && (n_total_answers wa mod print_every o =? 0)) eqn:Hc.
    + destruct (diagnostics_prints o start wa Hc) as (line & -> & _).
      simpl. apply prefix_app_r. reflexivity.
    + rewrite (diagnostics_silent o start wa Hc). reflexivity.
Qed.

Lemma loop_extends o proba start es w :
  calls w `prefix_of` calls (loop o proba start es w).2 /\
  stdout w `prefix_of` stdout (loop o proba start es w).2.
Proof.
  revert w. induction es as [|e es IH]; intros w.
  - split; reflexivity.
  - rewrite loop_cons. destruct (step_extends o proba start e w) as [Hc Hs].
    destruct (step o proba start e w) as [[|err] w1]; simpl in *; [|auto].
    destruct (IH w1) as [Hc' Hs']. split; etransitivity; eassumption.
Qed.

(** X12: the call never looks ahead. What was called and printed on a
    first part of the stream is the beginning of what is called and
    printed on the whole stream, whatever follows; and once that first
    part has raised, what follows changes nothing at all. *)
Theorem no_look_ahead es1 es2 (m : M) (t : T) o :
  let r1 := progressive_val_score es1 m t o in
  let r := progressive_val_score (es1 ++ es2) m t o in
  calls r1.2 `prefix_of` calls r.2 /\
  stdout r1.2 `prefix_of` stdout r.2 /\
  (r1.1 <> Returned -> r = r1).
Proof.
  simpl. destruct (works_with t m) eqn:Hok.
  - rewrite !(pvs_loop _ m t o Hok), loop_app.
    destruct (loop o (choose_proba m t) _ es1 _) as [[|err] w1]; simpl.
    + destruct (loop_extends o (choose_proba m t)
                  (if show_time o then Some (perf_counter 0) else None) es2 w1)
        as [Hc Hs].
      split; [exact Hc|]. split; [exact Hs|]. intros Hne. now destruct Hne.
    + split; [reflexivity|]. split; reflexivity.
  - unfold progressive_val_score. rewrite Hok. simpl.
    split; [reflexivity|]. split; reflexivity.
Qed.

(** *** Scoring against learning *)

Lemma step_learned o1 o2 proba start1 start2 e
    (w1 w2 : @world M T) :
  learned w1 = learned w2 ->
  (step o1 proba start1 e w1).1 = (step o2 proba start2 e w2).1 /\
  learned (step o1 proba start1 e w1).2 = learned (step o2 proba start2 e w2).2.
Proof.
  unfold learned at 1 2. intros Heq.
  injection Heq as Hm Hp Hn Hc Hk.
  destruct e as [[i x] y]. unfold step.
  destruct (is_none y).
  - split; [reflexivity|]. unfold question, learned. simpl.
    rewrite Hm, Hp, Hn, Hc, Hk.
    destruct (pred_func proba (model w2) x); reflexivity.
  - simpl. rewrite Hp. destruct (preds w2 !! i) as [y_pred|]; simpl.
    + split; [reflexivity|].
      destruct (diagnostics_proj o1 start1 (answer i x y y_pred (pull w1)))
        as (Hm1 & _ & Hp1 & Hn1 & Hc1 & Hk1).
      destruct (diagnostics_proj o2 start2 (answer i x y y_pred (pull w2)))
        as (Hm2 & _ & Hp2 & Hn2 & Hc2 & Hk2).
      unfold learned. rewrite Hm1, Hp1, Hn1, Hc1, Hk1, Hm2, Hp2, Hn2, Hc2, Hk2.
      simpl. now rewrite Hm, Hp, Hn, Hc, Hk.
    + split; [reflexivity|]. unfold learned. simpl.
      now rewrite Hm, Hp, Hn, Hc, Hk.
Qed.

Lemma loop_learned o1 o2 proba start1 start2 es (w1 w2 : @world M T) :
  learned w1 = learned w2 ->
  (loop o1 proba start1 es w1).1 = (loop o2 proba start2 es w2).1 /\
  learned (loop o1 proba start1 es w1).2 = learned (loop o2 proba start2 es w2).2.
Proof.
  revert w1 w2. induction es as [|e es IH]; intros w1 w2 Heq; simpl.
  - auto.
  - destruct (step_learned o1 o2 proba start1 start2 e w1 w2 Heq) as [Ho Hl].
    destruct (step o1 proba start1 e w1) as [[|err1] w1'],
             (step o2 proba start2 e w2) as [[|err2] w2'];
      simpl in *; try discriminate; auto.
Qed.

(** X13: scoring never changes what the model learns. Two runs on the same
    stream and model, with two compatible metrics that agree on
    [requires_labels], possibly in different states and with different
    diagnostics, end the same way, make the same calls with the same
    predictions and leave the model in the same state. *)
Theorem metric_does_not_steer_training es (m : M) (t1 t2 : T) o1 o2 :
  works_with t1 m = true ->
  works_with t2 m = true ->
  requires_labels t1 = requires_labels t2 ->
  let r1 := progressive_val_score es m t1 o1 in
  let r2 := progressive_val_score es m t2 o2 in
  r1.1 = r2.1 /\ model r1.2 = model r2.2 /\ calls r1.2 = calls r2.2 /\
  preds r1.2 = preds r2.2.
Proof.
  intros Hok1 Hok2 Hsame. simpl.
  rewrite (pvs_loop es m t1 o1 Hok1), (pvs_loop es m t2 o2 Hok2).
  assert (Hproba : choose_proba m t1 = choose_proba m t2)
    by (unfold choose_proba; now rewrite Hsame).
  rewrite Hproba.
  match goal with
  | |- (loop _ _ ?s1 _ ?w1).1 = (loop _ _ ?s2 _ ?w2).1 /\ _ =>
      destruct (loop_learned o1 o2 (choose_proba m t2) s1 s2 es w1 w2)
        as [Hout Hl]; [reflexivity|]
  end.
  split; [exact Hout|]. unfold learned in Hl.
  injection Hl as Hm Hp _ Hc _. auto.
Qed.

(** *** A pending prediction is frozen *)

(** X14: a pending prediction is not refreshed. Events on other indices,
    training calls among them, leave the prediction stored for an index as
    it was when the question was asked. *)
Theorem pending_prediction_is_frozen es1 mid i (m : M) (t : T) o w1 w :
  progressive_val_score es1 m t o = (Returned, w1) ->
  Forall (fun e : event => e.1.1 <> i) mid ->
  progressive_val_score (es1 ++ mid) m t o = (Returned, w) ->
  preds w !! i = preds w1 !! i.
Proof.
  intros Hw1 Hmid Hw.
  pose proof (pvs_returned _ _ _ _ _ Hw1) as Hok.
  rewrite (pvs_loop es1 m t o Hok) in Hw1.
  rewrite (pvs_loop (es1 ++ mid) m t o Hok), loop_app, Hw1 in Hw.
  exact (loop_preds_other _ _ _ _ _ _ _ Hmid Hw).
Qed.

End Facts.

(** * The properties at work on the small model *)

Import Demo.

(** One observation with no delay, on a model already trained once: the
    prediction, the metric update, the training call. *)
Lemma one_observation_trace :
  calls (after (simulate_qa_no_delay [(x0, PyBool true)]) 1%nat soft quiet)
  = [CPredict 0 x0 (PyDict [(PyBool true, PyFloat 1%float)]);
     CUpdate 0 (PyBool true) (PyDict [(PyBool true, PyFloat 1%float)]);
     CFit 0 x0 (PyBool true)].
Proof. reflexivity. Qed.

(** The same on the untrained model asked for hard labels: it predicts
    [None], which is not scored. *)
Lemma one_cold_observation_trace :
  calls (after (simulate_qa_no_delay [(x0, PyBool true)]) 0%nat hard quiet)
  = [CPredict 0 x0 PyNone; CFit 0 x0 (PyBool true)].
Proof. reflexivity. Qed.

(** The order of calls on ten observations scored by the small model. *)
Lemma prediction_precedes_update_precedes_training_witness :
  progressive_val_score [(0, x0, PyNone)] 1%nat soft quiet
    = (Returned, after [(0, x0, PyNone)] 1%nat soft quiet) /\
  ordered (calls (after ten 1%nat soft quiet)).
Proof.
  assert (Hrun : progressive_val_score [(0, x0, PyNone)] 1%nat soft quiet
                 = (Returned, after [(0, x0, PyNone)] 1%nat soft quiet))
    by reflexivity.
  split; [exact Hrun|].
  exact (proj1 (prediction_precedes_update_precedes_training
                  ten [(0, x0, PyNone)] 0 x0 (PyBool true) 1%nat soft quiet _
                  Hrun)).
Defined.

(** The answer to a cold-start question: not scored, trained on once. *)
Lemma answer_updates_then_trains_once_witness :
  progressive_val_score [(0, x0, PyNone)] 0%nat soft quiet
    = (Returned, after [(0, x0, PyNone)] 0%nat soft quiet) /\
  is_none (PyBool true) = false /\
  preds (after [(0, x0, PyNone)] 0%nat soft quiet) !! 0 = Some (PyDict []) /\
  exists w2,
    progressive_val_score [(0, x0, PyNone); (0, x0, PyBool true)]
      0%nat soft quiet = (Returned, w2) /\
    model w2 = 1%nat /\ metric w2 = soft /\
    fits (calls w2) = [(0, x0, PyBool true)].
Proof.
  assert (Hrun : progressive_val_score [(0, x0, PyNone)] 0%nat soft quiet
                 = (Returned, after [(0, x0, PyNone)] 0%nat soft quiet))
    by reflexivity.
  assert (Hp : preds (after [(0, x0, PyNone)] 0%nat soft quiet) !! 0
               = Some (PyDict [])) by reflexivity.
  split; [exact Hrun|]. split; [reflexivity|]. split; [exact Hp|].
  destruct (answer_updates_then_trains_once
              [(0, x0, PyNone)] 0 x0 (PyBool true) (PyDict []) 0%nat soft quiet
              _ Hrun eq_refl Hp)
    as (w2 & Hrun2 & Hm & Hskip & _ & Hfits & _).
  exists w2. split; [exact Hrun2|]. split; [exact Hm|].
  split; [|exact Hfits]. exact (proj1 (Hskip (or_introl eq_refl))).
Defined.

(** A metric for regressors refuses the small classifier at once. *)
Lemma incompatible_metric_raises_first_witness :
  works_with regression_only 0%nat = false /\
  exists msg w,
    progressive_val_score ten 0%nat regression_only quiet
      = (Raised (ValueError msg), w) /\
    pulled w = 0%nat /\ calls w = [] /\ stdout w = [] /\
    model w = 0%nat /\ metric w = regression_only /\ preds w = ∅.
Proof.
  split; [reflexivity|].
  exact (incompatible_metric_raises_first ten 0%nat regression_only quiet eq_refl).
Defined.

(** An answer on index 7, never asked, stops the run with [KeyError 7]. *)
Lemma missing_prediction_is_fatal_witness :
  progressive_val_score [] 0%nat soft quiet
    = (Returned, after [] 0%nat soft quiet) /\
  preds (after [] 0%nat soft quiet) !! 7 = None /\
  is_none (PyBool true) = false /\
  exists w,
    progressive_val_score ([] ++ (7, x0, PyBool true) :: ten) 0%nat soft quiet
      = (Raised (KeyError 7), w) /\
    calls w = [].
Proof.
  assert (Hrun : progressive_val_score [] 0%nat soft quiet
                 = (Returned, after [] 0%nat soft quiet)) by reflexivity.
  assert (Hp : preds (after [] 0%nat soft quiet) !! 7 = None) by reflexivity.
  split; [exact Hrun|]. split; [exact Hp|]. split; [reflexivity|].
  destruct (missing_prediction_is_fatal
              [] ten 7 x0 (PyBool true) 0%nat soft quiet _ Hrun Hp eq_refl)
    as (w & Hraise & _ & _ & Hcalls & _).
  exists w. split; [exact Hraise | exact Hcalls].
Defined.

(** C5, as stated, fails: with a negative [print_every] a line is printed
    although [print_every] is not positive. *)
Lemma negative_print_every_prints :
  let o := Options (-1) false false in
  let r := progressive_val_score [(0, x0, PyNone); (0, x0, PyBool true)]
             0%nat soft o in
  ~ 0 < print_every o /\ r.1 = Returned /\ stdout r.2 = ["[1] Tally: 0"].
Proof. cbv zeta. split; [simpl; lia|]. split; reflexivity. Qed.

(** Ten observations with [print_every = 5]: the lines for 5 and 10. *)
Lemma diagnostics_at_multiples_witness :
  progressive_val_score ten 0%nat soft (Options 5 true true)
    = (Returned, after ten 0%nat soft (Options 5 true true)) /\
  exists l5 l10,
    stdout (after ten 0%nat soft (Options 5 true true)) = [l5; l10] /\
    line_of_count 5 l5 /\ line_of_count 10 l10.
Proof.
  assert (Hrun : progressive_val_score ten 0%nat soft (Options 5 true true)
                 = (Returned, after ten 0%nat soft (Options 5 true true)))
    by (vm_compute; reflexivity).
  split; [exact Hrun|].
  destruct (diagnostics_at_multiples ten 0%nat soft (Options 5 true true) _
              Hrun) as (_ & _ & _ & Hten & _).
  apply Hten; vm_compute; reflexivity.
Defined.

(** The delayed stream is well formed. *)
Lemma delayed_well_formed : well_formed delayed.
Proof.
  split.
  - apply (bool_decide_unpack _). vm_compute. exact I.
  - apply (bool_decide_unpack _). vm_compute. exact I.
  - intros l i x y r Heq Hy. unfold delayed in Heq.
    repeat (destruct l as [|? l]; simpl in Heq;
            [ first [ discriminate Heq
                    | injection Heq as <- <- <- <-;
                      first [ discriminate Hy
                            | apply (bool_decide_unpack _); vm_compute;
                              exact I ] ]
            | first [ discriminate Heq | injection Heq as <- Heq ] ]).
  - intros i Hi. exact Hi.
Qed.

(** On the delayed stream the call returns with nothing pending. *)
Lemma pending_predictions_track_outstanding_witness :
  works_with soft 0%nat = true /\
  well_formed delayed /\
  exists w,
    progressive_val_score delayed 0%nat soft quiet = (Returned, w) /\
    preds w = ∅.
Proof.
  assert (Hok : works_with soft 0%nat = true) by reflexivity.
  split; [exact Hok|]. split; [exact delayed_well_formed|].
  destruct (pending_predictions_track_outstanding delayed 0%nat soft quiet
              Hok delayed_well_formed) as (w & Hrun & Hempty & _).
  exists w. split; [exact Hrun | exact Hempty].
Defined.

(** C7, as stated, fails: the first prediction of the cold model is the
    empty mapping, which the hand-written loop scores and the call does
    not. *)
Lemma cold_start_prediction_is_not_scored :
  let X_y := [(x0, PyBool true)] in
  let r := progressive_val_score (simulate_qa_no_delay X_y) 0%nat soft quiet in
  let by_hand := manual_loop (choose_proba 0%nat soft) X_y 0%nat soft in
  r.1 = Returned /\
  seen (metric r.2) = [] /\
  seen by_hand.2 = [(PyBool true, PyDict [])] /\
  metric r.2 <> by_hand.2.
Proof.
  cbv zeta. split; [reflexivity|]. split; [reflexivity|]. split; [reflexivity|].
  intros Heq. apply (f_equal seen) in Heq. discriminate Heq.
Qed.

(** A label that is [None] in the raw stream is never taken for an answer:
    the model is not trained on it, while the hand-written loops train. *)
Lemma absent_label_is_never_answered :
  let X_y := [(x0, PyNone)] in
  let r := progressive_val_score (simulate_qa_no_delay X_y) 0%nat soft quiet in
  r.1 = Returned /\ model r.2 = 0%nat /\
  (guarded_manual_loop (choose_proba 0%nat soft) X_y 0%nat soft).1 = 1%nat.
Proof. cbv zeta. split; [reflexivity|]. split; reflexivity. Qed.

(** Ten observations with no delay against the guarded loop. *)
Lemma no_delay_is_guarded_manual_loop_witness :
  works_with soft 0%nat = true /\
  Forall (fun xy : pyval * pyval => is_none xy.2 = false)
         (replicate 10 (x0, PyBool true)) /\
  exists w,
    progressive_val_score ten 0%nat soft quiet = (Returned, w) /\
    (model w, metric w)
    = guarded_manual_loop (choose_proba 0%nat soft)
        (replicate 10 (x0, PyBool true)) 0%nat soft.
Proof.
  assert (Hlabels : Forall (fun xy : pyval * pyval => is_none xy.2 = false)
                           (replicate 10 (x0, PyBool true)))
    by (repeat constructor).
  assert (Hok : works_with soft 0%nat = true) by reflexivity.
  split; [exact Hok|]. split; [exact Hlabels|].
  destruct (no_delay_is_guarded_manual_loop
              (replicate 10 (x0, PyBool true)) 0%nat soft quiet Hok Hlabels)
    as (w & Hrun & Hres & _).
  exists w. split; [exact Hrun | exact Hres].
Defined.

(** Index 0 is asked (prediction 0); index 1 is asked and answered, which
    trains the regressor; index 0 is asked again (prediction 1); index 2 is
    asked and answered; index 0 is answered with label 3. The metric is
    fed the second prediction, 1, not the first. *)
Lemma later_question_overwrites_witness :
  progressive_val_score
    ([] ++ (0, x0, PyNone) :: [(1, x0, PyNone); (1, x0, PyInt 5)])
    0%Z regression_only quiet
    = (Returned,
       after_regressor [(0, x0, PyNone); (1, x0, PyNone); (1, x0, PyInt 5)]
         0%Z regression_only quiet) /\
  Forall (fun e : event => e.1.1 = 0 -> is_none e.2 = true)
         [(1, x0, PyNone); (1, x0, PyInt 5)] /\
  Forall (fun e : event => e.1.1 <> 0) [(2, x0, PyNone); (2, x0, PyInt 6)] /\
  progressive_val_score
    ([] ++ (0, x0, PyNone) :: [(1, x0, PyNone); (1, x0, PyInt 5)]
        ++ (0, PyDict [], PyNone) :: [(2, x0, PyNone); (2, x0, PyInt 6)])
    0%Z regression_only quiet
    = (Returned,
       after_regressor
         [(0, x0, PyNone); (1, x0, PyNone); (1, x0, PyInt 5);
          (0, PyDict [], PyNone); (2, x0, PyNone); (2, x0, PyInt 6)]
         0%Z regression_only quiet) /\
  is_none (PyInt 3) = false /\
  preds (after_regressor [(0, x0, PyNone); (1, x0, PyNone); (1, x0, PyInt 5)]
           0%Z regression_only quiet) !! 0 = Some (PyInt 0) /\
  exists w4,
    progressive_val_score
      [(0, x0, PyNone); (1, x0, PyNone); (1, x0, PyInt 5);
       (0, PyDict [], PyNone); (2, x0, PyNone); (2, x0, PyInt 6);
       (0, x0, PyInt 3)] 0%Z regression_only quiet = (Returned, w4) /\
    seen (metric w4)
    = [(PyInt 5, PyInt 0); (PyInt 6, PyInt 1); (PyInt 3, PyInt 1)].
Proof.
  assert (Hw1 : progressive_val_score
                  ([] ++ (0, x0, PyNone) :: [(1, x0, PyNone); (1, x0, PyInt 5)])
                  0%Z regression_only quiet
                = (Returned,
                   after_regressor
                     [(0, x0, PyNone); (1, x0, PyNone); (1, x0, PyInt 5)]
                     0%Z regression_only quiet))
    by (vm_compute; reflexivity).
  assert (Hmid1 : Forall (fun e : event => e.1.1 = 0 -> is_none e.2 = true)
                         [(1, x0, PyNone); (1, x0, PyInt 5)])
    by (repeat constructor; simpl; intros Heq; discriminate Heq).
  assert (Hmid2 : Forall (fun e : event => e.1.1 <> 0)
                         [(2, x0, PyNone); (2, x0, PyInt 6)])
    by (repeat constructor; discriminate).
  assert (Hw3 : progressive_val_score
                  ([] ++ (0, x0, PyNone) :: [(1, x0, PyNone); (1, x0, PyInt 5)]
                      ++ (0, PyDict [], PyNone)
                         :: [(2, x0, PyNone); (2, x0, PyInt 6)])
                  0%Z regression_only quiet
                = (Returned,
                   after_regressor
                     [(0, x0, PyNone); (1, x0, PyNone); (1, x0, PyInt 5);
                      (0, PyDict [], PyNone); (2, x0, PyNone); (2, x0, PyInt 6)]
                     0%Z regression_only quiet))
    by (vm_compute; reflexivity).
  split; [exact Hw1|]. split; [exact Hmid1|]. split; [exact Hmid2|].
  split; [exact Hw3|]. split; [reflexivity|].
  destruct (later_question_overwrites
              [] [(1, x0, PyNone); (1, x0, PyInt 5)]
              [(2, x0, PyNone); (2, x0, PyInt 6)] 0 x0 (PyDict []) x0 (PyInt 3)
              0%Z regression_only quiet _ _ Hw1 Hmid1 Hmid2 Hw3 eq_refl)
    as (w0 & y_pred1 & w2 & w4 & _ & Hp1 & _ & _ & _ & _ & Hw4 & Ht & _).
  split.
  - assert (Hstored : preds (after_regressor
                               [(0, x0, PyNone); (1, x0, PyNone); (1, x0, PyInt 5)]
                               0%Z regression_only quiet) !! 0
                      = Some (PyInt 0)) by (vm_compute; reflexivity).
    exact Hstored.
  - exists w4. split; [exact Hw4|]. rewrite Ht. vm_compute. reflexivity.
Defined.

(** The regressor's first prediction, the falsy [0], is scored. *)
Lemma only_empty_or_none_skips_metric_witness :
  progressive_val_score [(0, x0, PyNone)] 0%Z regression_only quiet
    = (Returned, after_regressor [(0, x0, PyNone)] 0%Z regression_only quiet) /\
  is_none (PyInt 3) = false /\
  preds (after_regressor [(0, x0, PyNone)] 0%Z regression_only quiet) !! 0
    = Some (PyInt 0) /\
  exists w2,
    progressive_val_score [(0, x0, PyNone); (0, x0, PyInt 3)]
      0%Z regression_only quiet = (Returned, w2) /\
    seen (metric w2) = [(PyInt 3, PyInt 0)].
Proof.
  assert (Hrun : progressive_val_score [(0, x0, PyNone)] 0%Z regression_only quiet
                 = (Returned,
                    after_regressor [(0, x0, PyNone)] 0%Z regression_only quiet))
    by reflexivity.
  assert (Hp : preds (after_regressor [(0, x0, PyNone)] 0%Z regression_only quiet)
                 !! 0 = Some (PyInt 0)) by reflexivity.
  split; [exact Hrun|]. split; [reflexivity|]. split; [exact Hp|].
  destruct (only_empty_or_none_skips_metric
              [(0, x0, PyNone)] 0 x0 (PyInt 3) (PyInt 0) 0%Z regression_only
              quiet _ Hrun eq_refl Hp)
    as (w2 & Hrun2 & _ & _ & Hfalsy).
  exists w2. split; [exact Hrun2|].
  destruct (Hfalsy (list_elem_of_here _ _)) as [_ Hmetric].
  rewrite Hmetric. reflexivity.
Defined.

(** ** Further properties on the small model *)

(** The calls made on the delayed stream are its four events. *)
Lemma calls_follow_the_stream_witness :
  progressive_val_score delayed 0%nat soft quiet
    = (Returned, after delayed 0%nat soft quiet) /\
  skeleton (calls (after delayed 0%nat soft quiet)) = delayed.
Proof.
  assert (Hrun : progressive_val_score delayed 0%nat soft quiet
                 = (Returned, after delayed 0%nat soft quiet))
    by (vm_compute; reflexivity).
  split; [exact Hrun|].
  exact (proj2 (calls_follow_the_stream delayed 0%nat soft quiet _ _ Hrun)
               eq_refl).
Defined.

(** An answer on index 7 that was never asked: the failure is the
    [KeyError], met at that event. *)
Lemma the_only_failures_witness :
  progressive_val_score [(7, x0, PyBool true)] 0%nat soft quiet
    = (Raised (KeyError 7), after [(7, x0, PyBool true)] 0%nat soft quiet) /\
  exists es1 x y es2,
    [(7, x0, PyBool true)] = es1 ++ (7, x, y) :: es2 /\
    last_label es1 7 <> Some PyNone.
Proof.
  assert (Hrun : progressive_val_score [(7, x0, PyBool true)] 0%nat soft quiet
                 = (Raised (KeyError 7),
                    after [(7, x0, PyBool true)] 0%nat soft quiet))
    by reflexivity.
  split; [exact Hrun|].
  destruct (the_only_failures _ 0%nat soft quiet _ _ Hrun)
    as [(Hbad & _)
       | (_ & es1 & i & x & y & es2 & w1 & Hes & Herr & _ & Hlast & _)].
  - discriminate Hbad.
  - injection Herr as <-. now exists es1, x, y, es2.
Defined.

(** The criterion for the small classifier and the delayed stream. *)
Lemma returns_iff_answers_are_pending_witness :
  works_with soft 0%nat = true /\
  ((exists w, progressive_val_score delayed 0%nat soft quiet = (Returned, w)) <->
   (forall es1 i x y es2, delayed = es1 ++ (i, x, y) :: es2 ->
      is_none y = false -> last_label es1 i = Some PyNone)).
Proof.
  assert (Hok : works_with soft 0%nat = true) by reflexivity.
  split; [exact Hok|].
  exact (returns_iff_answers_are_pending delayed 0%nat soft quiet Hok).
Defined.

(** After a single question its index is pending. *)
Lemma pending_iff_last_event_is_question_witness :
  progressive_val_score [(0, x0, PyNone)] 0%nat soft quiet
    = (Returned, after [(0, x0, PyNone)] 0%nat soft quiet) /\
  (is_Some (preds (after [(0, x0, PyNone)] 0%nat soft quiet) !! 0) <->
   last_label [(0, x0, PyNone)] 0 = Some PyNone).
Proof.
  assert (Hrun : progressive_val_score [(0, x0, PyNone)] 0%nat soft quiet
                 = (Returned, after [(0, x0, PyNone)] 0%nat soft quiet))
    by reflexivity.
  split; [exact Hrun|].
  exact (proj1 (pending_iff_last_event_is_question _ 0%nat soft quiet _ Hrun) 0).
Defined.

(** Ten observations with [show_time]: one reading before the loop and one
    for each of the two lines. *)
Lemma clock_read_once_per_line_witness :
  works_with soft 0%nat = true /\
  ticks (progressive_val_score ten 0%nat soft (Options 5 true false)).2 =
  if show_time (Options 5 true false)
  then S (length (stdout (progressive_val_score ten 0%nat soft
                            (Options 5 true false)).2))
  else 0%nat.
Proof.
  assert (Hok : works_with soft 0%nat = true) by reflexivity.
  split; [exact Hok|].
  exact (clock_read_once_per_line ten 0%nat soft (Options 5 true false) Hok).
Defined.

(** Ten answers with [print_every = -3]: three lines. *)
Lemma number_of_lines_witness :
  progressive_val_score ten 0%nat soft (Options (-3) false false)
    = (Returned, after ten 0%nat soft (Options (-3) false false)) /\
  Z.of_nat (length (stdout (after ten 0%nat soft (Options (-3) false false))))
  = if print_every (Options (-3) false false) =? 0 then 0
    else Z.of_nat (length (answered ten))
         / Z.abs (print_every (Options (-3) false false)).
Proof.
  assert (Hrun : progressive_val_score ten 0%nat soft (Options (-3) false false)
                 = (Returned, after ten 0%nat soft (Options (-3) false false)))
    by (vm_compute; reflexivity).
  split; [exact Hrun|].
  exact (number_of_lines ten 0%nat soft (Options (-3) false false) _ Hrun).
Defined.

Lemma three_lines_for_ten_answers :
  stdout (after ten 0%nat soft (Options (-3) false false))
  = ["[3] Tally: 2"; "[6] Tally: 5"; "[9] Tally: 8"].
Proof. vm_compute. reflexivity. Qed.

(** The first answer with every diagnostic switched on. *)
Lemma line_shows_state_after_answer_witness :
  progressive_val_score [(0, x0, PyNone)] 1%nat soft (Options 1 true true)
    = (Returned, after [(0, x0, PyNone)] 1%nat soft (Options 1 true true)) /\
  progressive_val_score ([(0, x0, PyNone)] ++ [(0, x0, PyBool true)])
    1%nat soft (Options 1 true true)
    = (Returned,
       after [(0, x0, PyNone); (0, x0, PyBool true)] 1%nat soft
             (Options 1 true true)) /\
  is_none (PyBool true) = false /\
  print_every (Options 1 true true) <> 0 /\
  n_total_answers (after [(0, x0, PyNone); (0, x0, PyBool true)] 1%nat soft
                         (Options 1 true true))
    mod print_every (Options 1 true true) = 0 /\
  n_total_answers (after [(0, x0, PyNone); (0, x0, PyBool true)] 1%nat soft
                         (Options 1 true true))
  = n_total_answers (after [(0, x0, PyNone)] 1%nat soft (Options 1 true true))
    + 1.
Proof.
  assert (Hw1 : progressive_val_score [(0, x0, PyNone)] 1%nat soft
                  (Options 1 true true)
                = (Returned,
                   after [(0, x0, PyNone)] 1%nat soft (Options 1 true true)))
    by reflexivity.
  assert (Hw2 : progressive_val_score
                  ([(0, x0, PyNone)] ++ [(0, x0, PyBool true)])
                  1%nat soft (Options 1 true true)
                = (Returned,
                   after [(0, x0, PyNone); (0, x0, PyBool true)] 1%nat soft
                         (Options 1 true true)))
    by (vm_compute; reflexivity).
  assert (Hpe : print_every (Options 1 true true) <> 0) by discriminate.
  assert (Hmod : n_total_answers
                   (after [(0, x0, PyNone); (0, x0, PyBool true)] 1%nat soft
                          (Options 1 true true))
                 mod print_every (Options 1 true true) = 0)
    by (vm_compute; reflexivity).
  split; [exact Hw1|]. split; [exact Hw2|]. split; [reflexivity|].
  split; [exact Hpe|]. split; [exact Hmod|].
  exact (proj1 (line_shows_state_after_answer
                  [(0, x0, PyNone)] 0 x0 (PyBool true) 1%nat soft
                  (Options 1 true true) _ _ Hw1 Hw2 eq_refl Hpe Hmod)).
Defined.

Lemma first_line_in_full :
  stdout (after [(0, x0, PyNone); (0, x0, PyBool true)] 1%nat soft
                (Options 1 true true))
  = ["[1] Tally: 1 – 0:00:01 – 2 B"].
Proof. vm_compute. reflexivity. Qed.

(** Two questions and no answer. *)
Lemma questions_only_leave_metric_alone_witness :
  works_with soft 0%nat = true /\
  answered [(0, x0, PyNone); (1, x0, PyNone)] = [] /\
  exists w,
    progressive_val_score [(0, x0, PyNone); (1, x0, PyNone)] 0%nat soft
      (Options 1 true true) = (Returned, w) /\
    metric w = soft /\ fits (calls w) = [] /\ stdout w = [] /\
    n_total_answers w = 0.
Proof.
  assert (Hok : works_with soft 0%nat = true) by reflexivity.
  split; [exact Hok|]. split; [reflexivity|].
  exact (questions_only_leave_metric_alone
           [(0, x0, PyNone); (1, x0, PyNone)] 0%nat soft (Options 1 true true)
           Hok eq_refl).
Defined.

(** The counter 1234567 is written [1,234,567]. *)
Lemma thousands_grouping_witness :
  0 <= 1234567 /\
  filter no_comma (list_ascii_of_string (fmt_thousands 1234567))
  = list_ascii_of_string (pretty 1234567).
Proof.
  assert (Hn : 0 <= 1234567) by discriminate.
  split; [exact Hn|].
  exact (proj1 (thousands_grouping 1234567 Hn)).
Defined.

Lemma counter_in_millions : fmt_thousands 1234567 = "1,234,567".
Proof. vm_compute. reflexivity. Qed.

(** The same stream scored by a fresh tally and by one already in use. *)
Lemma metric_does_not_steer_training_witness :
  works_with soft 0%nat = true /\
  works_with (Tally true false [(PyInt 1, PyInt 1)]) 0%nat = true /\
  requires_labels soft
    = requires_labels (Tally true false [(PyInt 1, PyInt 1)]) /\
  model (progressive_val_score ten 0%nat soft quiet).2
  = model (progressive_val_score ten 0%nat
             (Tally true false [(PyInt 1, PyInt 1)]) (Options 5 true true)).2.
Proof.
  assert (Hok1 : works_with soft 0%nat = true) by reflexivity.
  assert (Hok2 : works_with (Tally true false [(PyInt 1, PyInt 1)]) 0%nat
                 = true) by reflexivity.
  assert (Hsame : requires_labels soft
                  = requires_labels (Tally true false [(PyInt 1, PyInt 1)]))
    by reflexivity.
  split; [exact Hok1|]. split; [exact Hok2|]. split; [exact Hsame|].
  exact (proj1 (proj2 (metric_does_not_steer_training
                         ten 0%nat soft (Tally true false [(PyInt 1, PyInt 1)])
                         quiet (Options 5 true true) Hok1 Hok2 Hsame))).
Defined.

(** Index 0 is asked, then index 1 is asked and answered: the prediction
    stored for index 0 stays. *)
Lemma pending_prediction_is_frozen_witness :
  progressive_val_score [(0, x0, PyNone)] 0%nat soft quiet
    = (Returned, after [(0, x0, PyNone)] 0%nat soft quiet) /\
  Forall (fun e : event => e.1.1 <> 0) [(1, x0, PyNone); (1, x0, PyBool true)] /\
  progressive_val_score
    ([(0, x0, PyNone)] ++ [(1, x0, PyNone); (1, x0, PyBool true)])
    0%nat soft quiet
    = (Returned,
       after [(0, x0, PyNone); (1, x0, PyNone); (1, x0, PyBool true)]
             0%nat soft quiet) /\
  preds (after [(0, x0, PyNone); (1, x0, PyNone); (1, x0, PyBool true)]
               0%nat soft quiet) !! 0
  = preds (after [(0, x0, PyNone)] 0%nat soft quiet) !! 0.
Proof.
  assert (Hw1 : progressive_val_score [(0, x0, PyNone)] 0%nat soft quiet
                = (Returned, after [(0, x0, PyNone)] 0%nat soft quiet))
    by reflexivity.
  assert (Hmid : Forall (fun e : event => e.1.1 <> 0)
                        [(1, x0, PyNone); (1, x0, PyBool true)])
    by (repeat constructor; discriminate).
  assert (Hw : progressive_val_score
                 ([(0, x0, PyNone)] ++ [(1, x0, PyNone); (1, x0, PyBool true)])
                 0%nat soft quiet
               = (Returned,
                  after [(0, x0, PyNone); (1, x0, PyNone); (1, x0, PyBool true)]
                        0%nat soft quiet))
    by (vm_compute; reflexivity).
  split; [exact Hw1|]. split; [exact Hmid|]. split; [exact Hw|].
  exact (pending_prediction_is_frozen
           [(0, x0, PyNone)] [(1, x0, PyNone); (1, x0, PyBool true)] 0
           0%nat soft quiet _ _ Hw1 Hmid Hw).
Defined.

(** The clock of the small model renders durations as [dt.timedelta]
    prints them. *)
Lemma timedelta_repr_examples :
  timedelta_repr 1 = "0:00:01" /\ timedelta_repr 10 = "0:00:10" /\
  timedelta_repr 3725 = "1:02:05" /\
  timedelta_repr 90061 = "1 day, 1:01:01" /\
  timedelta_repr 172800 = "2 days, 0:00:00".
Proof. vm_compute. repeat split. Qed.
